(** * JsonHandling: the path-specification interpreter and the selective
      cartesian product

    A shallow embedding of [json_handling/specifier.py] ([Token],
    [Specifier]) and of the product generator of
    [json_handling/json_to_csv.py] ([JsonProcessor.conditional_product],
    [JsonProcessor._curr_gen], [JsonProcessor.isiterable]), followed by the
    properties of the specification that are stated about them. *)

From Stdlib Require Import ZArith Lia.
From stdpp Require Import base option list strings sorting.

Set Default Proof Using "Type".
Local Open Scope Z_scope.
Local Open Scope list_scope.

(** ** Documents and Python exceptions *)

(** A loaded json document.  Numbers are kept as integers: for every
    operation below a float behaves like an int (it is neither subscriptable
    nor iterable).  A [dict] is an association list in insertion order, the
    order in which Python iterates its keys; its keys are strings and are
    assumed distinct, lookup takes the first binding. *)
Unset Elimination Schemes.
Inductive value : Type :=
  | JNull
  | JBool (b : bool)
  | JNum (z : Z)
  | JStr (s : string)
  | JList (l : list value)
  | JDict (m : list (string * value)).
Set Elimination Schemes.

(** The exceptions that the modelled code can raise. *)
Inductive exn : Type :=
  | TypeError
  | KeyError
  | IndexError
  | ValueError
  | RuntimeError
  | RecursionError.

(** A Python computation: it returns or it raises. *)
Inductive outcome (A : Type) : Type :=
  | Ok (a : A)
  | Raise (e : exn).
Arguments Ok {A} a.
Arguments Raise {A} e.

Definition bind {A B} (c : outcome A) (k : A -> outcome B) : outcome B :=
  match c with
  | Ok a => k a
  | Raise e => Raise e
  end.

Notation "'try!' x ':=' c 'in' k" := (bind c (fun x => k))
  (at level 10, x name, c at level 100, k at level 200,
   format "'try!'  x  ':='  c  'in'  '/' k").

(** A list comprehension [[f v for v in l]]: evaluated left to right, the
    first exception ends it. *)
Fixpoint comprehension {A B} (f : A -> outcome B) (l : list A)
  : outcome (list B) :=
  match l with
  | [] => Ok []
  | v :: l' => try! r := f v in try! rs := comprehension f l' in Ok (r :: rs)
  end.

Definition is_list (v : value) : bool :=
  match v with JList _ => true | _ => false end.

(** The characters of a string, each a string of length one, as iterating a
    [str] yields them. *)
Fixpoint chars (s : string) : list value :=
  match s with
  | EmptyString => []
  | String c s' => JStr (String c EmptyString) :: chars s'
  end.

(** [iter(v)] followed by a full traversal: the elements of a list, the keys
    of a dict, the characters of a str; any other value is not iterable
    ([TypeError], here [None]). *)
Definition py_iter (v : value) : option (list value) :=
  match v with
  | JList l => Some l
  | JDict m => Some (map (fun kv => JStr (fst kv)) m)
  | JStr s => Some (chars s)
  | JNull | JBool _ | JNum _ => None
  end.

(** [for v in json] where the loop body is [f]. *)
Definition for_each {B} (json : value) (f : value -> outcome B)
  : outcome (list B) :=
  match py_iter json with
  | Some elems => comprehension f elems
  | None => Raise TypeError
  end.

(** [seq[i]] for a Python sequence of length [length l]: indices
    [-len .. len-1] are valid, negative ones count from the end. *)
Definition py_index {A} (l : list A) (i : Z) : option A :=
  let len := Z.of_nat (length l) in
  if (0 <=? i) then l !! Z.to_nat i
  else if (- len <=? i) then l !! Z.to_nat (len + i)
  else None.

Fixpoint dict_get (m : list (string * value)) (k : string) : option value :=
  match m with
  | [] => None
  | (k', v) :: m' => if String.eqb k' k then Some v else dict_get m' k
  end.

(** ** specifier.py *)

(** The three tokens of [Specifier.tokens]. *)
Inductive token : Type := KEEP_ALL | FLATTEN | UNPACK.

(** A regular key of a specifier tuple: a name or an index. *)
Inductive key : Type :=
  | KStr (s : string)
  | KInt (i : Z).

Inductive step : Type :=
  | Key (k : key)
  | Tok (t : token).

(** [json[name]].  A list or a str takes integer indices and raises
    [TypeError] for a name; a dict raises [KeyError] for every key it does
    not hold, an integer among them since its keys are strings; the other
    values are not subscriptable. *)
Definition getitem (json : value) (name : key) : outcome value :=
  match json, name with
  | JList l, KInt i =>
      match py_index l i with Some v => Ok v | None => Raise IndexError end
  | JList _, KStr _ => Raise TypeError
  | JStr s, KInt i =>
      match py_index (chars s) i with
      | Some v => Ok v
      | None => Raise IndexError
      end
  | JStr _, KStr _ => Raise TypeError
  | JDict m, KStr k =>
      match dict_get m k with Some v => Ok v | None => Raise KeyError end
  | JDict _, KInt _ => Raise KeyError
  | (JNull | JBool _ | JNum _), _ => Raise TypeError
  end.

(** [sum(xs, start=acc)] over lists already known to be lists. *)
Definition sum_lists (xs : list (list value)) (start : list value)
  : list value :=
  fold_left (fun acc x => acc ++ x) xs start.

(** [Token.flatten]: the result is the Python list it returns. *)
Fixpoint flatten (lists : value) : list value :=
  match lists with
  | JList l => sum_lists (map flatten l) []
  | _ => [lists]
  end.

(** [acc + x] with [acc] a list: only a list can be added to a list. *)
Definition list_add (acc : list value) (x : value) : outcome (list value) :=
  match x with
  | JList l => Ok (acc ++ l)
  | _ => Raise TypeError
  end.

Fixpoint sum_from (start : list value) (xs : list value)
  : outcome (list value) :=
  match xs with
  | [] => Ok start
  | x :: xs' => try! acc := list_add start x in sum_from acc xs'
  end.

(** [sum(lists, start=[])]: iterating [lists] may itself raise. *)
Definition py_sum (lists : value) : outcome (list value) :=
  match py_iter lists with
  | Some xs => sum_from [] xs
  | None => Raise TypeError
  end.

(** [Token.unpack]: the sum, or the argument when the sum raised
    [TypeError]. *)
Definition unpack (lists : value) : outcome value :=
  match py_sum lists with
  | Ok l => Ok (JList l)
  | Raise TypeError => Ok lists
  | Raise e => Raise e
  end.

(** [Token.apply]: [spec] is the application of the remaining specifier. *)
Definition token_apply (t : token) (spec : value -> outcome value)
    (json : value) : outcome value :=
  match t with
  | KEEP_ALL => try! rs := for_each json spec in Ok (JList rs)
  | FLATTEN => try! v := spec json in Ok (JList (flatten v))
  | UNPACK => try! v := spec json in unpack v
  end.

(** [Specifier(tuple).apply(json)].  [depth] is the number of nested calls of
    [apply] that the interpreter's recursion limit still allows; when it is
    used up Python raises [RecursionError], which no handler here catches. *)
Fixpoint apply (depth : nat) (tuple : list step) (json : value)
  : outcome value :=
  match depth with
  | O => Raise RecursionError
  | S depth' =>
      match tuple with
      | [] => Ok json
      | Tok name :: rest => token_apply name (apply depth' rest) json
      | Key name :: rest =>
          match getitem json name with
          | Ok sub =>
              match rest with
              | [] => Ok sub
              | _ :: _ => apply depth' rest sub
              end
          | Raise TypeError =>
              try! rs := for_each json (apply depth' tuple) in Ok (JList rs)
          | Raise e => Raise e
          end
      end
  end.

(** ** json_to_csv.py: the selective cartesian product *)

(** Truth value of an object, as [if pred] tests it. *)
Definition truthy (v : value) : bool :=
  match v with
  | JNull => false
  | JBool b => b
  | JNum z => negb (z =? 0)
  | JStr s => negb (String.eqb s EmptyString)
  | JList l => negb (Nat.eqb (length l) 0)
  | JDict m => negb (Nat.eqb (length m) 0)
  end.

(** [JsonProcessor.isiterable]: whether [iter(val)] succeeds. *)
Definition isiterable (val : value) : bool :=
  match py_iter val with Some _ => true | None => false end.

(** The [key] argument of [conditional_product]: a callable, given by the
    truth value of what it returns, or any other object ([None] is
    [KeyObj JNull]). *)
Inductive selector : Type :=
  | KeyFun (pred : value -> bool)
  | KeyObj (v : value).

(** An entry of the list [iters]: a list iterator with the elements it has
    still to give, or the value itself at a position that is not expanded. *)
Inductive slot : Type :=
  | It (rest : list value)
  | Raw (v : value).

(** [next(it)] on an entry of [iters].  [None] is [StopIteration]; a value
    that is not an iterator raises [TypeError]. *)
Definition slot_next (s : slot) : outcome (option (value * slot)) :=
  match s with
  | It (x :: rest) => Ok (Some (x, It rest))
  | It [] => Ok None
  | Raw _ => Raise TypeError
  end.

(** [l[idx] = x], for an index that is not negative. *)
Definition list_set {A} (l : list A) (idx : nat) (x : A) : outcome (list A) :=
  if decide (idx < length l)%nat then Ok (<[idx := x]> l)
  else Raise IndexError.

(** The local variables of a suspended [_curr_gen]. *)
Record frame : Type := Frame {
  f_key : list bool;
  f_vals : list value;
  f_iters : list slot;
  f_curr : list value
}.

(** [iters = [iter(val) if pred else val for pred, val in zip(key, vals)]] *)
Definition make_iters (key : list bool) (vals : list value)
  : outcome (list slot) :=
  comprehension
    (fun pv : bool * value =>
       if pv.1 then
         match py_iter pv.2 with
         | Some elems => Ok (It elems)
         | None => Raise TypeError
         end
       else Ok (Raw pv.2))
    (zip key vals).

(** [curr = [next(it) if pred else it for pred, it in zip(key, iters)]]:
    each [next] advances the iterator held in [iters], so the list of
    entries is threaded through.  A [StopIteration] leaving the body of a
    generator reaches the caller as [RuntimeError].  An unexpanded position
    always holds a [Raw] entry ([iters] was built from the same [key]). *)
Fixpoint first_row (pairs : list (bool * slot))
  : outcome (list slot * list value) :=
  match pairs with
  | [] => Ok ([], [])
  | (pred, it) :: pairs' =>
      try! here :=
        (if pred then
           try! n := slot_next it in
           match n with
           | Some (x, it') => Ok (it', x)
           | None => Raise RuntimeError
           end
         else
           match it with
           | Raw v => Ok (it, v)
           | It _ => Raise TypeError
           end) in
      try! more := first_row pairs' in
      Ok (here.1 :: more.1, here.2 :: more.2)
  end.

(** How one pass of the [for] loop of [_curr_gen] ends. *)
Inductive loop_end : Type :=
  | Broke (iters : list slot) (curr : list value)
  | Exhausted
  | Threw (e : exn).

(** The [for pred, idx in zip(reversed(key), range(len(vals)-1, -1, -1))]
    loop, [pairs] being what is left of the zip. *)
Fixpoint advance (pairs : list (bool * nat)) (vals : list value)
    (iters : list slot) (curr : list value) : loop_end :=
  match pairs with
  | [] => Exhausted
  | (pred, idx) :: pairs' =>
      if negb pred then advance pairs' vals iters curr
      else
        match iters !! idx with
        | None => Threw IndexError
        | Some it =>
            match slot_next it with
            | Raise e => Threw e
            | Ok (Some (x, it')) =>
                match list_set curr idx x with
                | Ok curr' => Broke (<[idx := it']> iters) curr'
                | Raise e => Threw e
                end
            | Ok None =>
                match vals !! idx with
                | None => Threw IndexError
                | Some val =>
                    match py_iter val with
                    | None => Threw TypeError
                    | Some [] => Threw RuntimeError
                    | Some (x :: rest) =>
                        match list_set curr idx x with
                        | Ok curr' =>
                            advance pairs' vals (<[idx := It rest]> iters)
                              curr'
                        | Raise e => Threw e
                        end
                    end
                end
            end
        end
  end.

(** The indices [range(len(vals)-1, -1, -1)]. *)
Definition countdown (n : nat) : list nat := reverse (seq 0 n).

(** A generator object made by [_curr_gen]: not started, suspended at its
    [yield], or finished. *)
Inductive generator : Type :=
  | Fresh (vals : list value) (key : list bool)
  | Suspended (f : frame)
  | Finished.

(** What a call of [next] on a generator gives. *)
Inductive yielded : Type :=
  | Yield (row : list value)
  | StopIteration
  | Error (e : exn).

(** [next(gen)]: the body of [_curr_gen] from where it stands to its next
    [yield], its end, or an exception (after which the generator is
    finished). *)
Definition gen_next (g : generator) : yielded * generator :=
  match g with
  | Fresh vals key =>
      match (try! iters := make_iters key vals in
             first_row (zip key iters)) with
      | Ok (iters, curr) => (Yield curr, Suspended (Frame key vals iters curr))
      | Raise e => (Error e, Finished)
      end
  | Suspended f =>
      match advance (zip (reverse (f_key f)) (countdown (length (f_vals f))))
              (f_vals f) (f_iters f) (f_curr f) with
      | Broke iters curr =>
          (Yield curr, Suspended (Frame (f_key f) (f_vals f) iters curr))
      | Exhausted => (StopIteration, Finished)
      | Threw e => (Error e, Finished)
      end
  | Finished => (StopIteration, Finished)
  end.

(** [JsonProcessor.conditional_product]: a plain method, so the checks on
    [key] run at the call; the generator it returns has not started.  A
    predicate is mapped over [vals] ([map(key, vals)], consumed by
    [tuple(key)] when the generator starts); an iterable is a mask, read by
    the truth value of its elements. *)
Definition conditional_product (vals : list value) (key : selector)
  : outcome generator :=
  match key with
  | KeyObj JNull => Ok (Fresh vals (map isiterable vals))
  | KeyFun pred => Ok (Fresh vals (map pred vals))
  | KeyObj v =>
      match py_iter v with
      | Some mask => Ok (Fresh vals (map truthy mask))
      | None => Raise ValueError
      end
  end.

(** How a traversal of a generator ends. *)
Inductive ending : Type :=
  | Stopped
  | Failed (e : exn)
  | Pending.

(** [list(gen)], calling [next] at most [fuel] times: the rows yielded and
    how the traversal ended ([Pending] when [fuel] calls did not end it). *)
Fixpoint drain (fuel : nat) (g : generator) : list (list value) * ending :=
  match fuel with
  | O => ([], Pending)
  | S fuel' =>
      match gen_next g with
      | (Yield row, g') =>
          let rest := drain fuel' g' in (row :: rest.1, rest.2)
      | (StopIteration, _) => ([], Stopped)
      | (Error e, _) => ([], Failed e)
      end
  end.

(** ** json_to_csv.py: the processor and its table *)

(** A [JsonProcessor] wraps a loaded json ([self.json]). *)
Record JsonProcessor : Type := Processor { pjson : value }.

(** [JsonProcessor.__getitem__]: [self[specifier]] applies the specifier and
    wraps what it returns. *)
Definition JsonProcessor_getitem (depth : nat) (self : JsonProcessor)
    (specifier : list step) : outcome JsonProcessor :=
  try! v := apply depth specifier (pjson self) in Ok (Processor v).

(** The tuples of [zip] over the unpacked columns, each given by its
    elements: one tuple per position that every column has, none when there
    is no column. *)
Fixpoint zip_rows (columns : list (list value)) : list (list value) :=
  match columns with
  | [] => []
  | [c] => map (fun x => [x]) c
  | c :: ((_ :: _) as columns') => zip_with cons c (zip_rows columns')
  end.

(** [zip] called on the unpacked [columns]: every column is iterated, which
    raises [TypeError] at the call for a column that is not iterable. *)
Definition py_zip (columns : list value) : outcome (list (list value)) :=
  try! iterated :=
    comprehension
      (fun c => match py_iter c with
                | Some elems => Ok elems
                | None => Raise TypeError
                end)
      columns in
  Ok (zip_rows iterated).

(** [itertools.chain] over the unpacked generators, traversed with at most
    [fuel] calls of [next] on each of them: the generators are drained one after the other, an
    exception of one of them ends the traversal. *)
Fixpoint chain (fuel : nat) (gens : list generator)
  : list (list value) * ending :=
  match gens with
  | [] => ([], Stopped)
  | g :: gens' =>
      let first := drain fuel g in
      match first.2 with
      | Stopped =>
          let rest := chain fuel gens' in (first.1 ++ rest.1, rest.2)
      | _ => first
      end
  end.

(** [JsonProcessor.make_csv], up to the [csv] writer: the header and the
    rows that it hands to [writer.writerow] and [writer.writerows], whose
    rendering as text is the work of the [csv] module.  [column_specifiers]
    is the dict of the columns in insertion order.  The rows are produced
    while [writerows] consumes them: an ending [Failed e] is [make_csv]
    raising [e] there, and no text is returned. *)
Definition make_csv_rows (depth fuel : nat) (self : JsonProcessor)
    (column_specifiers : list (string * list step))
    (context_specifier : list step) (take_product : bool)
  : outcome (list string * (list (list value) * ending)) :=
  try! w_context := JsonProcessor_getitem depth self context_specifier in
  try! column_data :=
    comprehension
      (fun named : string * list step =>
         try! column := JsonProcessor_getitem depth w_context named.2 in
         Ok (named.1, pjson column))
      column_specifiers in
  try! rows := py_zip (map snd column_data) in
  if take_product then
    try! gens :=
      comprehension
        (fun row => conditional_product row (KeyFun is_list)) rows in
    Ok (map fst column_data, chain fuel gens)
  else Ok (map fst column_data, (rows, Stopped)).

(** ** Notions used to state the properties *)

(** [Specifier(tuple).apply(json)] returns [r] when the recursion limit is
    large enough. *)
Definition returns (tuple : list step) (json r : value) : Prop :=
  exists depth, apply depth tuple json = Ok r.

(** An outcome other than [RecursionError]: it is what the call does under
    any recursion limit that lets it finish. *)
Definition settled {A} (o : outcome A) : Prop := o <> Raise RecursionError.

(** Indexing [json] by [name] succeeds. *)
Definition supports (json : value) (name : key) : Prop :=
  exists sub, getitem json name = Ok sub.

(** The broadcasting property as the specification words it, for any key:
    on a list whose elements all support [name], applying a specifier headed
    by [name] gives the list of the results of applying it to each
    element. *)
Definition broadcast_claim (name : key) (rest : list step) (l : list value)
  : Prop :=
  Forall (fun e => supports e name) l ->
  forall rs, Forall2 (returns (Key name :: rest)) l rs ->
             returns (Key name :: rest) (JList l) (JList rs).

(** A key that a compatible container does not hold, with the exception
    that indexing raises: a name missing from a dict, an index outside
    [-len .. len-1] of a list. *)
Inductive missing : value -> key -> exn -> Prop :=
  | missing_name m k :
      dict_get m k = None -> missing (JDict m) (KStr k) KeyError
  | missing_index l i :
      i < - Z.of_nat (length l) \/ Z.of_nat (length l) <= i ->
      missing (JList l) (KInt i) IndexError.

(** The reference definition of flattening, in the words of the
    specification: [[x]] when [x] is not a list, else the concatenation of
    the flattenings of its elements. *)
Fixpoint flatten_ref (x : value) : list value :=
  match x with
  | JList l => concat (map flatten_ref l)
  | _ => [x]
  end.

(** The value found in [v] by following the list indices of [path], when it
    is a leaf (not a list). *)
Fixpoint leaf_at (v : value) (path : list nat) : option value :=
  match path with
  | [] => if is_list v then None else Some v
  | i :: path' =>
      match v with
      | JList l =>
          match l !! i with
          | Some e => leaf_at e path'
          | None => None
          end
      | _ => None
      end
  end.

(** The paths below the elements of a list whose first element has index
    [i], element after element. *)
Definition paths_from (paths : value -> list (list nat))
  : nat -> list value -> list (list nat) :=
  fix go (i : nat) (l : list value) : list (list nat) :=
    match l with
    | [] => []
    | e :: l' => map (cons i) (paths e) ++ go (S i) l'
    end.

(** The paths of the leaves of a value, depth first. *)
Fixpoint leaf_paths (v : value) : list (list nat) :=
  match v with
  | JList l => paths_from leaf_paths 0 l
  | _ => [[]]
  end.

(** Document order on paths: the lexicographic order. *)
Inductive path_lt : list nat -> list nat -> Prop :=
  | path_lt_nil i q : path_lt [] (i :: q)
  | path_lt_head i j p q : (i < j)%nat -> path_lt (i :: p) (j :: q)
  | path_lt_tail i p q : path_lt p q -> path_lt (i :: p) (i :: q).

(** The elements of a value that is a list. *)
Definition children (v : value) : list value :=
  match v with JList l => l | _ => [] end.

(** The cells of a row that the mask selects. *)
Fixpoint selected_cells (key : list bool) (vals : list value) : list value :=
  match key, vals with
  | pred :: key', val :: vals' =>
      if pred then val :: selected_cells key' vals'
      else selected_cells key' vals'
  | _, _ => []
  end.

(** [len(val)] of an iterable cell. *)
Definition cell_length (val : value) : nat :=
  match py_iter val with Some elems => length elems | None => O end.

(** The product of the lengths of the selected cells. *)
Definition expansion_count (key : list bool) (vals : list value) : nat :=
  foldr Nat.mul 1%nat (map cell_length (selected_cells key vals)).

(** The axis of a position: the elements of a selected cell, the cell alone
    when it is held fixed. *)
Definition axis (pred : bool) (val : value) : option (list value) :=
  if pred then py_iter val else Some [val].

Fixpoint axes (key : list bool) (vals : list value)
  : option (list (list value)) :=
  match key, vals with
  | pred :: key', val :: vals' =>
      match axis pred val, axes key' vals' with
      | Some a, Some rest => Some (a :: rest)
      | _, _ => None
      end
  | _, _ => Some []
  end.

(** The n-ary cartesian product of the axes, the first axis being the most
    significant and the last one varying fastest. *)
Fixpoint cartesian (ax : list (list value)) : list (list value) :=
  match ax with
  | [] => [[]]
  | a :: ax' => flat_map (fun e => map (cons e) (cartesian ax')) a
  end.

(** *** The odometer behind a suspended generator *)

(** A position of the row as the generator holds it: a fixed cell, or a
    wheel with the cell [v], its elements [all], the element now shown and
    the elements its iterator has still to give. *)
Inductive digit : Type :=
  | Fixed (v : value)
  | Wheel (v : value) (all : list value) (cur : value) (rest : list value).

Definition d_pred (d : digit) : bool :=
  match d with Fixed _ => false | Wheel _ _ _ _ => true end.

Definition d_val (d : digit) : value :=
  match d with Fixed v => v | Wheel v _ _ _ => v end.

Definition d_slot (d : digit) : slot :=
  match d with Fixed v => Raw v | Wheel _ _ _ rest => It rest end.

Definition d_curr (d : digit) : value :=
  match d with Fixed v => v | Wheel _ _ cur _ => cur end.

Definition d_axis (d : digit) : list value :=
  match d with Fixed v => [v] | Wheel _ all _ _ => all end.

(** A wheel put back on the first element of its cell. *)
Definition rewind (d : digit) : digit :=
  match d with
  | Wheel v (x :: xs) _ _ => Wheel v (x :: xs) x xs
  | _ => d
  end.

(** A digit agrees with its cell: the cell iterates to [all], which is not
    empty. *)
Definition digit_ok (d : digit) : Prop :=
  match d with
  | Fixed _ => True
  | Wheel v all _ _ => py_iter v = Some all /\ all <> []
  end.

(** The frame whose locals are described by a list of digits. *)
Definition frame_of (ds : list digit) : frame :=
  Frame (map d_pred ds) (map d_val ds) (map d_slot ds) (map d_curr ds).

(** One step of the odometer: advance the positions to the right when they
    can, else turn this wheel and rewind those to its right. *)
Fixpoint incr (ds : list digit) : option (list digit) :=
  match ds with
  | [] => None
  | d :: ds' =>
      match incr ds' with
      | Some ds'' => Some (d :: ds'')
      | None =>
          match d with
          | Wheel v all _ (x :: rest) =>
              Some (Wheel v all x rest :: map rewind ds')
          | _ => None
          end
      end
  end.

(** The rows from the one now shown to the last one. *)
Fixpoint remaining (ds : list digit) : list (list value) :=
  match ds with
  | [] => [[]]
  | Fixed v :: ds' => map (cons v) (remaining ds')
  | Wheel _ _ cur rest :: ds' =>
      map (cons cur) (remaining ds')
      ++ flat_map (fun e => map (cons e) (cartesian (map d_axis ds'))) rest
  end.

(** The digits of a generator that has just yielded its first row. *)
Fixpoint first_digits (key : list bool) (vals : list value)
  : option (list digit) :=
  match key, vals with
  | pred :: key', val :: vals' =>
      match first_digits key' vals' with
      | Some ds =>
          if pred then
            match py_iter val with
            | Some (x :: xs) => Some (Wheel val (x :: xs) x xs :: ds)
            | _ => None
            end
          else Some (Fixed val :: ds)
      | None => None
      end
  | _, _ => Some []
  end.

(** The entry of [iters] that [_curr_gen] first makes for a position. *)
Definition fresh_slot (pred : bool) (val : value) : slot :=
  if pred then It (default [] (py_iter val)) else Raw val.

(** *** Notions for the further properties *)

(** Indexing step by step along a path of keys, with no broadcast. *)
Fixpoint follow (path : list key) (json : value) : outcome value :=
  match path with
  | [] => Ok json
  | name :: path' => try! sub := getitem json name in follow path' sub
  end.

(** [self[specifier]] returns [p] when the recursion limit is large
    enough. *)
Definition getitem_returns (self : JsonProcessor) (specifier : list step)
    (p : JsonProcessor) : Prop :=
  exists depth, JsonProcessor_getitem depth self specifier = Ok p.

(** The axes of a row under the default selector: every iterable cell is
    expanded. *)
Definition default_axes (vals : list value) : list (list value) :=
  map (fun v => match py_iter v with Some elems => elems | None => [v] end)
    vals.

(** The axes of a row under the selector of [make_csv]: the cells that are
    lists are expanded. *)
Definition list_axes (row : list value) : list (list value) :=
  map (fun v => match v with JList l => l | _ => [v] end) row.

(** Some cell of the row is an empty list. *)
Definition has_empty_list (row : list value) : bool :=
  existsb (fun v => match v with JList [] => true | _ => false end) row.

(** * Properties *)

(** ** Tests of the source's docstrings, replayed on the embedding *)

Example flatten_doctest :
  flatten (JList [JList [JNum 1; JNum 2];
                  JList [JList [JNum 3]; JList [JNum 4]]])
  = [JNum 1; JNum 2; JNum 3; JNum 4].
Proof. reflexivity. Qed.

Example unpack_doctest :
  unpack (JList [JList [JNum 1; JNum 2];
                 JList [JList [JNum 3]; JList [JNum 4]]])
  = Ok (JList [JNum 1; JNum 2; JList [JNum 3]; JList [JNum 4]])
  /\ unpack (JNum 1) = Ok (JNum 1).
Proof. split; reflexivity. Qed.

Example apply_doctest :
  let shape id pts := JDict [("id"%string, JNum id); ("points"%string, pts)] in
  let point id := JDict [("id"%string, JNum id)] in
  let json := JList [shape 0 (JList [point 0; point 2]);
                     shape 1 (JList [point 1])] in
  apply 5 [Key (KStr "points"); Key (KStr "id")] json
  = Ok (JList [JList [JNum 0; JNum 2]; JList [JNum 1]])
  /\ apply 5 [Tok FLATTEN; Key (KStr "points"); Key (KStr "id")] json
     = Ok (JList [JNum 0; JNum 2; JNum 1]).
Proof. split; reflexivity. Qed.

Example conditional_product_doctest :
  let pair a b := JList [JNum a; JNum b] in
  let vals := [pair 1 2; pair 3 4] in
  conditional_product vals (KeyObj (JList [JBool true; JBool false]))
  = Ok (Fresh vals [true; false])
  /\ drain 5 (Fresh vals [true; false])
     = ([[JNum 1; pair 3 4]; [JNum 2; pair 3 4]], Stopped).
Proof. split; reflexivity. Qed.

(** ** Induction on documents *)

Lemma value_list_ind (P : value -> Prop) :
  P JNull ->
  (forall b, P (JBool b)) ->
  (forall z, P (JNum z)) ->
  (forall s, P (JStr s)) ->
  (forall l, Forall P l -> P (JList l)) ->
  (forall m, P (JDict m)) ->
  forall v, P v.
Proof.
  intros Hnull Hbool Hnum Hstr Hlist Hdict.
  fix IH 1. intros [ | b | z | s | l | m ].
  - exact Hnull.
  - apply Hbool.
  - apply Hnum.
  - apply Hstr.
  - apply Hlist. induction l as [ | e l IHl ]; constructor.
    + apply IH.
    + exact IHl.
  - apply Hdict.
Qed.

(** ** The outcome monad and comprehensions *)

Lemma bind_Ok {A B} (c : outcome A) (k : A -> outcome B) (b : B) :
  bind c k = Ok b <-> exists a, c = Ok a /\ k a = Ok b.
Proof.
  destruct c as [a | e]; simpl; split.
  - eauto.
  - intros (a' & [= <-] & Hk). exact Hk.
  - discriminate.
  - intros (a' & [=] & _).
Qed.

Lemma comprehension_Ok {A B} (f : A -> outcome B) l rs :
  comprehension f l = Ok rs <-> Forall2 (fun v r => f v = Ok r) l rs.
Proof.
  revert rs. induction l as [ | v l IH ]; intros rs; simpl.
  - split.
    + intros [= <-]. constructor.
    + intros H. inversion H. reflexivity.
  - rewrite bind_Ok. split.
    + intros (r & Hr & H). apply bind_Ok in H as (rs' & Hrs & [= <-]).
      constructor; [ exact Hr | apply IH, Hrs ].
    + intros H. inversion H as [ | v' r l' rs' Hr Hrs ]; subst.
      exists r. split; [ exact Hr | ].
      apply bind_Ok. exists rs'. split; [ apply IH, Hrs | reflexivity ].
Qed.

Lemma comprehension_settled {A B} (f g : A -> outcome B) l o :
  (forall v o', f v = o' -> settled o' -> g v = o') ->
  comprehension f l = o -> settled o -> comprehension g l = o.
Proof.
  intros Hfg. revert o. induction l as [ | v l IH ]; intros o; simpl; [ done | ].
  destruct (f v) as [r | e] eqn:Hv; simpl.
  - rewrite (Hfg v (Ok r) Hv) by discriminate. simpl.
    destruct (comprehension f l) as [rs | e] eqn:Hl; simpl.
    + rewrite (IH (Ok rs)) by (auto; discriminate). auto.
    + intros <- He. rewrite (IH (Raise e)); [ reflexivity | reflexivity | ].
      intros [= ->]. apply He. reflexivity.
  - intros <- He. rewrite (Hfg v (Raise e) Hv); [ reflexivity | ].
    intros [= ->]. apply He. reflexivity.
Qed.

Lemma bind_settled {A B} (c c' : outcome A) (k k' : A -> outcome B) o :
  (settled c -> c' = c) ->
  (forall a o', k a = o' -> settled o' -> k' a = o') ->
  bind c k = o -> settled o -> bind c' k' = o.
Proof.
  intros Hc Hk. destruct c as [a | e]; simpl.
  - rewrite Hc by discriminate. simpl. apply Hk.
  - intros <- He. rewrite Hc; [ reflexivity | ].
    intros [= ->]. apply He. reflexivity.
Qed.

(** ** The interpreter *)

(** A settled outcome does not depend on the recursion limit. *)
Lemma apply_settled depth depth' tuple json o :
  (depth <= depth')%nat ->
  apply depth tuple json = o -> settled o -> apply depth' tuple json = o.
Proof.
  revert depth' tuple json o.
  induction depth as [ | depth IH ]; intros depth' tuple json o Hle.
  { simpl. intros <- H. destruct H. reflexivity. }
  destruct depth' as [ | depth' ]; [ lia | ].
  assert (Hrec : forall t v o', apply depth t v = o' -> settled o' ->
                                apply depth' t v = o').
  { intros t v o'. apply IH. lia. }
  assert (Heach : forall t v o', for_each v (apply depth t) = o' ->
                    settled o' -> for_each v (apply depth' t) = o').
  { intros t v o'. unfold for_each.
    destruct (py_iter v); [ | done ]. apply comprehension_settled, Hrec. }
  destruct tuple as [ | [name | name] rest ]; simpl; [ done | | ].
  - destruct (getitem json name) as [sub | [ | | | | | ]]; try done.
    + destruct rest; [ done | apply Hrec ].
    + apply bind_settled; [ | done ].
      intros Hs. apply (Heach _ _ _ eq_refl Hs).
  - destruct name; simpl.
    + apply bind_settled; [ | done ].
      intros Hs. apply (Heach _ _ _ eq_refl Hs).
    + apply bind_settled; [ | done ].
      intros Hs. apply (Hrec _ _ _ eq_refl Hs).
    + apply bind_settled; [ | done ].
      intros Hs. apply (Hrec _ _ _ eq_refl Hs).
Qed.

Lemma apply_mono depth depth' tuple json r :
  (depth <= depth')%nat ->
  apply depth tuple json = Ok r -> apply depth' tuple json = Ok r.
Proof. intros Hle H. apply (apply_settled depth); [ lia | exact H | done ]. Qed.

Lemma returns_unique tuple json r1 r2 :
  returns tuple json r1 -> returns tuple json r2 -> r1 = r2.
Proof.
  intros [d1 H1] [d2 H2].
  apply (apply_mono d1 (d1 `max` d2)) in H1; [ | lia ].
  apply (apply_mono d2 (d1 `max` d2)) in H2; [ | lia ].
  congruence.
Qed.

(** Results reached one by one are reached under a common limit. *)
Lemma returns_all tuple l rs :
  Forall2 (returns tuple) l rs ->
  exists depth, comprehension (apply depth tuple) l = Ok rs.
Proof.
  induction 1 as [ | v r l rs [d Hd] _ [ds Hds] ].
  - exists O. reflexivity.
  - exists (d `max` ds)%nat. apply comprehension_Ok. constructor.
    + apply (apply_mono d); [ lia | exact Hd ].
    + apply comprehension_Ok in Hds.
      eapply Forall2_impl; [ exact Hds | ].
      intros v' r'. apply apply_mono. lia.
Qed.

(** A name applied to a list is broadcast over its elements. *)
Lemma apply_name_list depth s rest l :
  apply (S depth) (Key (KStr s) :: rest) (JList l)
  = try! rs := comprehension (apply depth (Key (KStr s) :: rest)) l in
    Ok (JList rs).
Proof. reflexivity. Qed.

(** An index applied to a list selects one element. *)
Lemma apply_index_list depth i rest l v :
  py_index l i = Some v ->
  apply (S depth) (Key (KInt i) :: rest) (JList l)
  = match rest with [] => Ok v | _ => apply depth rest v end.
Proof. intros H. simpl. rewrite H. destruct rest; reflexivity. Qed.

(** An exception of the remaining specifier passes through [FLATTEN] and
    [UNPACK]. *)
Lemma apply_token_raise depth t rest json e :
  t <> KEEP_ALL ->
  apply depth rest json = Raise e ->
  apply (S depth) (Tok t :: rest) json = Raise e.
Proof. intros Ht H. destruct t; [ done | | ]; simpl; rewrite H; reflexivity. Qed.

(** A name applied to a non-empty string never returns: each character is
    again a string of one character, to which the same specifier is
    applied. *)
Lemma apply_name_str depth s rest c cs :
  apply depth (Key (KStr s) :: rest) (JStr (String c cs))
  = Raise RecursionError.
Proof.
  revert c cs. induction depth as [ | depth IH ]; intros c cs; [ done | ].
  simpl. unfold for_each. simpl. rewrite IH. reflexivity.
Qed.

(** C8: for every document [d], applying the empty specification to [d]
    returns [d] unchanged. *)
Theorem apply_empty_identity depth d : apply (S depth) [] d = Ok d.
Proof. reflexivity. Qed.

(** C6: when a key step meets a compatible container that does not hold the
    key (a dict without that name, a list whose range excludes that index),
    [apply] raises the lookup error of the indexing ([KeyError],
    [IndexError]) whatever the rest of the specifier is: nothing catches
    it and no broadcast or partial result replaces it. *)
Theorem missing_key_raises depth json name rest e :
  missing json name e ->
  apply (S depth) (Key name :: rest) json = Raise e.
Proof.
  intros Hmiss. destruct Hmiss as [m k Hget | l i Hrange]; simpl.
  - rewrite Hget. reflexivity.
  - unfold py_index.
    destruct (Z.leb_spec 0 i) as [Hpos | Hneg].
    + rewrite lookup_ge_None_2; [ reflexivity | lia ].
    + destruct (Z.leb_spec (- Z.of_nat (length l)) i); [ lia | reflexivity ].
Qed.

Lemma missing_key_raises_witness :
  missing (JList [JNum 7]) (KInt 1) IndexError
  /\ apply 1 [Key (KInt 1); Tok FLATTEN] (JList [JNum 7]) = Raise IndexError.
Proof.
  assert (H : missing (JList [JNum 7]) (KInt 1) IndexError).
  { constructor. simpl. lia. }
  split; [ exact H | ].
  exact (missing_key_raises 0 (JList [JNum 7]) (KInt 1) [Tok FLATTEN]
           IndexError H).
Defined.

(** C10: for every dict and every integer key step, the indexing raises
    [KeyError] and [apply] raises it in turn; the broadcast over the
    elements, which only a [TypeError] of the indexing starts, does not
    happen. *)
Theorem mapping_index_raises depth m i rest :
  getitem (JDict m) (KInt i) = Raise KeyError
  /\ apply (S depth) (Key (KInt i) :: rest) (JDict m) = Raise KeyError.
Proof. split; reflexivity. Qed.

(** C1, as stated, fails for an index: on [[[1], [2]]] the key [0] is
    supported by both elements and applying [(0,)] to each gives [1] and
    [2], yet applying it to the list gives its first element [[1]]. *)
Lemma broadcast_claim_fails_for_index :
  ~ broadcast_claim (KInt 0) [] [JList [JNum 1]; JList [JNum 2]].
Proof.
  intros Hclaim.
  assert (Hsup : Forall (fun e => supports e (KInt 0))
                   [JList [JNum 1]; JList [JNum 2]]).
  { repeat constructor; eexists; reflexivity. }
  assert (Hall : Forall2 (returns [Key (KInt 0)])
                   [JList [JNum 1]; JList [JNum 2]] [JNum 1; JNum 2]).
  { repeat constructor; exists 1%nat; reflexivity. }
  specialize (Hclaim Hsup _ Hall).
  assert (Hone : returns [Key (KInt 0)] (JList [JList [JNum 1]; JList [JNum 2]])
                   (JList [JNum 1])).
  { exists 1%nat. reflexivity. }
  pose proof (returns_unique _ _ _ _ Hclaim Hone) as Heq.
  discriminate Heq.
Qed.

(** C1, amended: for every list and every name (string key), applying a
    specifier headed by that name to the list is applying it to each element
    in turn: it returns a result exactly when every element application
    returns one, and the result is then the list of those results, in the
    order of the elements. *)
Theorem broadcast_name s rest l r :
  returns (Key (KStr s) :: rest) (JList l) r
  <-> exists rs, r = JList rs
                 /\ Forall2 (returns (Key (KStr s) :: rest)) l rs.
Proof.
  split.
  - intros [[ | depth] H]; [ discriminate | ].
    rewrite apply_name_list in H.
    apply bind_Ok in H as (rs & Hrs & [= <-]).
    exists rs. split; [ reflexivity | ].
    apply comprehension_Ok in Hrs.
    eapply Forall2_impl; [ exact Hrs | ].
    intros v r' Hv. exists depth. exact Hv.
  - intros (rs & -> & Hall). apply returns_all in Hall as [depth Hdepth].
    exists (S depth). rewrite apply_name_list, Hdepth. reflexivity.
Qed.

Lemma broadcast_name_witness :
  returns [Key (KStr "a")]
    (JList [JDict [("a"%string, JNum 1)]; JDict [("a"%string, JNum 2)]])
    (JList [JNum 1; JNum 2]).
Proof.
  apply (proj2 (broadcast_name "a" [] _ _)).
  exists [JNum 1; JNum 2]. split; [ reflexivity | ].
  repeat constructor; exists 1%nat; reflexivity.
Defined.

(** ** Flattening *)

Lemma sum_lists_concat xs start : sum_lists xs start = start ++ concat xs.
Proof.
  unfold sum_lists. revert start.
  induction xs as [ | x xs IH ]; intros start; simpl.
  - rewrite app_nil_r. reflexivity.
  - rewrite IH, app_assoc. reflexivity.
Qed.

Lemma flatten_flatten_ref v : flatten v = flatten_ref v.
Proof.
  induction v as [ | b | z | s | l IH | m ] using value_list_ind; try reflexivity.
  simpl. rewrite sum_lists_concat. simpl. f_equal.
  induction IH as [ | e l He _ IHl ]; simpl; [ reflexivity | ].
  rewrite He, IHl. reflexivity.
Qed.

Lemma flatten_ref_flat v : Forall (fun x => is_list x = false) (flatten_ref v).
Proof.
  induction v as [ | b | z | s | l IH | m ] using value_list_ind; simpl;
    try (repeat constructor; fail).
  induction IH as [ | e l He _ IHl ]; simpl; [ constructor | ].
  apply Forall_app. split; assumption.
Qed.

Lemma leaf_at_cons l i path :
  leaf_at (JList l) (i :: path)
  = match l !! i with Some e => leaf_at e path | None => None end.
Proof. reflexivity. Qed.

Lemma paths_from_leaves paths before l :
  Forall (fun e => map (leaf_at e) (paths e) = map Some (flatten_ref e)) l ->
  map (leaf_at (JList (before ++ l))) (paths_from paths (length before) l)
  = map Some (concat (map flatten_ref l)).
Proof.
  intros Hl. revert before.
  induction Hl as [ | e l He _ IH ]; intros before; simpl; [ reflexivity | ].
  rewrite !map_app. f_equal.
  - rewrite map_map. rewrite <- He. apply map_ext. intros path.
    rewrite leaf_at_cons, list_lookup_middle; reflexivity.
  - specialize (IH (before ++ [e])).
    rewrite length_app, Nat.add_1_r, <- app_assoc in IH. exact IH.
Qed.

Lemma leaf_paths_leaves v :
  map (leaf_at v) (leaf_paths v) = map Some (flatten_ref v).
Proof.
  induction v as [ | b | z | s | l IH | m ] using value_list_ind; try reflexivity.
  exact (paths_from_leaves leaf_paths [] l IH).
Qed.

Lemma elem_of_paths_from paths i l q :
  q ∈ paths_from paths i l
  <-> exists j e p, q = (i + j)%nat :: p /\ l !! j = Some e /\ p ∈ paths e.
Proof.
  revert i. induction l as [ | e l IH ]; intros i; simpl.
  - split; [ intros H; inversion H | intros (j & e & p & _ & [=] & _) ].
  - rewrite elem_of_app, IH. split.
    + intros [Hq | (j & e' & p & -> & Hj & Hp)].
      * apply list_elem_of_In, in_map_iff in Hq as (p & <- & Hp).
        exists O, e, p. rewrite Nat.add_0_r.
        split; [ reflexivity | split; [ reflexivity | ] ].
        apply list_elem_of_In, Hp.
      * exists (S j), e', p. rewrite Nat.add_succ_r. auto.
    + intros ([ | j] & e' & p & -> & Hj & Hp).
      * left. injection Hj as <-. rewrite Nat.add_0_r.
        apply list_elem_of_In, in_map, list_elem_of_In, Hp.
      * right. exists j, e', p. rewrite Nat.add_succ_r. auto.
Qed.

Lemma leaf_paths_complete v path x :
  leaf_at v path = Some x -> path ∈ leaf_paths v.
Proof.
  revert path.
  induction v as [ | b | z | s | l IH | m ] using value_list_ind; intros [ | i path ] H;
    simpl in H; try discriminate; try apply list_elem_of_here.
  destruct (l !! i) as [e | ] eqn:He; [ | discriminate ].
  simpl. apply elem_of_paths_from. exists i, e, path.
  repeat split; [ exact He | ].
  rewrite Forall_forall in IH. apply IH; [ | exact H ].
  apply list_elem_of_lookup. eauto.
Qed.

Lemma paths_from_sorted paths i l :
  Forall (fun e => StronglySorted path_lt (paths e)) l ->
  StronglySorted path_lt (paths_from paths i l).
Proof.
  intros Hl. revert i.
  induction Hl as [ | e l He _ IH ]; intros i; simpl; [ constructor | ].
  apply StronglySorted_app_2; [ | | apply IH ].
  - intros p q Hp Hq.
    apply list_elem_of_In, in_map_iff in Hp as (p' & <- & _).
    apply elem_of_paths_from in Hq as (j & e' & q' & -> & _ & _).
    apply path_lt_head. lia.
  - clear IH. induction He as [ | p ps _ IHps Hp ]; simpl; constructor.
    + exact IHps.
    + rewrite Forall_forall in Hp. apply Forall_forall. intros q Hq.
      apply list_elem_of_In, in_map_iff in Hq as (q' & <- & Hq').
      apply path_lt_tail, Hp, list_elem_of_In, Hq'.
Qed.

Lemma leaf_paths_sorted v : StronglySorted path_lt (leaf_paths v).
Proof.
  induction v as [ | b | z | s | l IH | m ] using value_list_ind;
    try (repeat constructor; fail).
  apply paths_from_sorted, IH.
Qed.

(** C3: for every value [v], [Token.flatten] computes the reference
    flattening ([[v]] when [v] is not a list, else the concatenation of the
    flattenings of its elements in order); hence no element of the result
    is a list, and the result lists the leaves of [v] (the non-list values
    reached through lists only) once each, in depth-first document order:
    reading [v] at the leaf paths, which are all the paths that reach a
    leaf and are in increasing lexicographic order, gives the result. *)
Theorem flatten_collapses v :
  flatten v = flatten_ref v
  /\ Forall (fun x => is_list x = false) (flatten v)
  /\ map (leaf_at v) (leaf_paths v) = map Some (flatten v)
  /\ (forall path x, leaf_at v path = Some x -> path ∈ leaf_paths v)
  /\ StronglySorted path_lt (leaf_paths v).
Proof.
  rewrite flatten_flatten_ref.
  split; [ reflexivity | ].
  split; [ apply flatten_ref_flat | ].
  split; [ apply leaf_paths_leaves | ].
  split; [ apply leaf_paths_complete | apply leaf_paths_sorted ].
Qed.

(** ** Unpacking *)

Lemma sum_from_lists start xs :
  forallb is_list xs = true ->
  sum_from start xs = Ok (start ++ concat (map children xs)).
Proof.
  revert start. induction xs as [ | x xs IH ]; intros start Hall; simpl.
  - rewrite app_nil_r. reflexivity.
  - simpl in Hall. apply andb_prop in Hall as [Hx Hxs].
    destruct x; try discriminate. simpl.
    rewrite IH, app_assoc; [ reflexivity | exact Hxs ].
Qed.

Lemma sum_from_other start xs :
  forallb is_list xs = false -> sum_from start xs = Raise TypeError.
Proof.
  revert start. induction xs as [ | x xs IH ]; intros start Hall; simpl.
  - discriminate.
  - simpl in Hall. destruct x; try reflexivity. simpl. apply IH, Hall.
Qed.

(** X8: [sum] raises nothing but [TypeError], which [Token.unpack] catches:
    [Token.unpack] never raises, whatever it is given. *)
Lemma unpack_returns v : exists r, unpack v = Ok r.
Proof.
  unfold unpack, py_sum.
  destruct (py_iter v) as [xs | ]; [ | eauto ].
  destruct (forallb is_list xs) eqn:Hall.
  - rewrite sum_from_lists by exact Hall. eauto.
  - rewrite sum_from_other by exact Hall. eauto.
Qed.

(** C4: for every list [l], [Token.unpack] returns the concatenation of the
    elements of [l] (one list made of their own elements, which are left as
    they are) exactly when every element of [l] is a list, and returns [l]
    itself when some element is not a list; it raises nothing. *)
Theorem unpack_list l :
  unpack (JList l)
  = Ok (if forallb is_list l then JList (concat (map children l))
        else JList l).
Proof.
  unfold unpack, py_sum. simpl.
  destruct (forallb is_list l) eqn:Hall.
  - rewrite sum_from_lists by exact Hall. reflexivity.
  - rewrite sum_from_other by exact Hall. reflexivity.
Qed.

(** X9: what [Token.unpack] does to a value that is not a list: a value that
    cannot be iterated, or whose iteration gives something (the keys of a
    dict, the characters of a str: never lists), comes back unchanged. *)
Lemma unpack_not_list v :
  is_list v = false ->
  py_iter v <> Some [] ->
  unpack v = Ok v.
Proof.
  intros Hv Hiter. unfold unpack, py_sum.
  destruct v as [ | b | z | s | l | m ]; try reflexivity; try discriminate.
  - destruct s; [ done | reflexivity ].
  - destruct m; [ done | reflexivity ].
Qed.

(** C9: [Token.unpack] does not return every value that is not a list
    unchanged: on the empty dict (and on the empty str) the sum runs over no
    element at all, raises nothing and returns its start value, the empty
    list. *)
Theorem unpack_empty_mapping :
  unpack (JDict []) = Ok (JList [])
  /\ unpack (JStr EmptyString) = Ok (JList [])
  /\ JList [] <> JDict [] /\ JList [] <> JStr EmptyString.
Proof. repeat split; discriminate. Qed.

(** ** The product: its reference definition *)

Lemma length_flat_map_const {A B} (f : A -> list B) (l : list A) n :
  (forall x, length (f x) = n) ->
  length (flat_map f l) = (length l * n)%nat.
Proof.
  intros Hf. induction l as [ | x l IH ]; simpl; [ reflexivity | ].
  rewrite length_app, Hf, IH. reflexivity.
Qed.

Lemma length_cartesian ax :
  length (cartesian ax) = foldr Nat.mul 1%nat (map length ax).
Proof.
  induction ax as [ | a ax IH ]; simpl; [ reflexivity | ].
  rewrite (length_flat_map_const _ _ (length (cartesian ax))).
  - rewrite IH. reflexivity.
  - intros x. apply length_map.
Qed.

Lemma axes_expansion_count key vals ax :
  axes key vals = Some ax ->
  foldr Nat.mul 1%nat (map length ax) = expansion_count key vals.
Proof.
  unfold expansion_count. revert vals ax.
  induction key as [ | pred key IH ]; intros [ | val vals ] ax; simpl;
    try (intros [= <-]; reflexivity).
  destruct (axis pred val) as [a | ] eqn:Ha; [ | discriminate ].
  destruct (axes key vals) as [ax' | ] eqn:Hax; [ | discriminate ].
  intros [= <-]. specialize (IH vals ax' Hax). simpl.
  destruct pred; simpl in Ha |- *.
  - unfold cell_length. rewrite Ha, IH. reflexivity.
  - injection Ha as <-. simpl. rewrite IH. lia.
Qed.

Lemma axes_selected_iterable key vals :
  length key = length vals ->
  Forall (fun v => isiterable v = true) (selected_cells key vals) ->
  exists ax, axes key vals = Some ax.
Proof.
  revert vals. induction key as [ | pred key IH ]; intros [ | val vals ];
    simpl; intros Hlen Hsel; try discriminate; [ eauto | ].
  injection Hlen as Hlen.
  destruct pred; simpl.
  - apply Forall_cons in Hsel as [Hval Hsel].
    destruct (IH vals Hlen Hsel) as [ax ->].
    unfold isiterable in Hval. destruct (py_iter val); [ eauto | discriminate ].
  - destruct (IH vals Hlen Hsel) as [ax ->]. eauto.
Qed.

Lemma axes_unselected key vals ax :
  axes key vals = Some ax -> selected_cells key vals = [] ->
  length key = length vals -> ax = map (fun v => [v]) vals.
Proof.
  revert vals ax.
  induction key as [ | pred key IH ]; intros [ | val vals ] ax; simpl;
    try discriminate; try (intros [= <-]; reflexivity).
  destruct (axis pred val) as [a | ] eqn:Ha; [ | discriminate ].
  destruct (axes key vals) as [ax' | ] eqn:Hax; [ | discriminate ].
  intros [= <-] Hsel [= Hlen]. destruct pred; [ discriminate | ].
  injection Ha as <-. rewrite (IH vals ax'); auto.
Qed.

Lemma cartesian_singletons (vals : list value) :
  cartesian (map (fun v => [v]) vals) = [vals].
Proof.
  induction vals as [ | v vals IH ]; simpl; [ reflexivity | ].
  rewrite IH. reflexivity.
Qed.

Lemma cartesian_empty_axis ax : [] ∈ ax -> cartesian ax = [].
Proof.
  induction ax as [ | a ax IH ]; simpl; intros Hin.
  - inversion Hin.
  - apply elem_of_cons in Hin as [<- | Hin]; [ reflexivity | ].
    rewrite IH by exact Hin.
    induction a as [ | x a IHa ]; simpl; auto.
Qed.

Lemma axes_empty_selected key vals ax :
  axes key vals = Some ax ->
  Exists (fun v => cell_length v = O) (selected_cells key vals) ->
  [] ∈ ax.
Proof.
  revert vals ax.
  induction key as [ | pred key IH ]; intros [ | val vals ] ax; simpl;
    try (intros _ H; inversion H; fail).
  destruct (axis pred val) as [a | ] eqn:Ha; [ | discriminate ].
  destruct (axes key vals) as [ax' | ] eqn:Hax; [ | discriminate ].
  intros [= <-] Hex. destruct pred; simpl in Ha.
  - apply Exists_cons in Hex as [Hval | Hex].
    + unfold cell_length in Hval. rewrite Ha in Hval.
      destruct a; [ apply list_elem_of_here | discriminate ].
    + apply list_elem_of_further, (IH vals); assumption.
  - apply list_elem_of_further, (IH vals); assumption.
Qed.

Lemma axes_nonempty_selected key vals ax :
  axes key vals = Some ax ->
  Forall (fun v => cell_length v <> O) (selected_cells key vals) ->
  [] ∉ ax.
Proof.
  revert vals ax.
  induction key as [ | pred key IH ]; intros [ | val vals ] ax; simpl;
    try (intros [= <-] _ H; inversion H; fail).
  destruct (axis pred val) as [a | ] eqn:Ha; [ | discriminate ].
  destruct (axes key vals) as [ax' | ] eqn:Hax; [ | discriminate ].
  intros [= <-] Hall Hin. destruct pred; simpl in Ha.
  - apply Forall_cons in Hall as [Hval Hall].
    apply elem_of_cons in Hin as [<- | Hin].
    + unfold cell_length in Hval. rewrite Ha in Hval. done.
    + exact (IH vals ax' Hax Hall Hin).
  - injection Ha as <-.
    apply elem_of_cons in Hin as [[=] | Hin].
    exact (IH vals ax' Hax Hall Hin).
Qed.

(** Every row of the product takes, at each position, an element of the
    axis of that position. *)
Lemma cartesian_rows ax row :
  row ∈ cartesian ax -> Forall2 (fun x a => x ∈ a) row ax.
Proof.
  revert row. induction ax as [ | a ax IH ]; simpl; intros row Hrow.
  - apply list_elem_of_singleton in Hrow as ->. constructor.
  - apply list_elem_of_In, in_flat_map in Hrow as (e & He & Hrow).
    apply in_map_iff in Hrow as (row' & <- & Hrow').
    constructor; [ apply list_elem_of_In, He | ].
    apply IH, list_elem_of_In, Hrow'.
Qed.

Lemma axes_lookup_fixed key vals ax i v :
  axes key vals = Some ax ->
  key !! i = Some false -> vals !! i = Some v -> ax !! i = Some [v].
Proof.
  revert vals ax i.
  induction key as [ | pred key IH ]; intros [ | val vals ] ax i; simpl;
    try done.
  destruct (axis pred val) as [a | ] eqn:Ha; [ | discriminate ].
  destruct (axes key vals) as [ax' | ] eqn:Hax; [ | discriminate ].
  intros [= <-]. destruct i as [ | i ]; simpl.
  - intros [= ->] [= ->]. simpl in Ha. congruence.
  - apply IH, Hax.
Qed.

Lemma length_axes key vals ax :
  axes key vals = Some ax -> length key = length vals ->
  length ax = length vals.
Proof.
  revert vals ax.
  induction key as [ | pred key IH ]; intros [ | val vals ] ax; simpl;
    try discriminate; try (intros [= <-]; reflexivity).
  destruct (axis pred val) as [a | ]; [ | discriminate ].
  destruct (axes key vals) as [ax' | ] eqn:Hax; [ | discriminate ].
  intros [= <-] [= Hlen]. simpl. f_equal. apply (IH vals); auto.
Qed.

(** ** The generator: its first row *)

Lemma make_iters_fresh key vals ax :
  axes key vals = Some ax ->
  make_iters key vals = Ok (zip_with fresh_slot key vals).
Proof.
  unfold make_iters. revert vals ax.
  induction key as [ | pred key IH ]; intros [ | val vals ] ax; simpl;
    try reflexivity.
  destruct (axis pred val) as [a | ] eqn:Ha; [ | discriminate ].
  destruct (axes key vals) as [ax' | ] eqn:Hax; [ | discriminate ].
  intros _. rewrite (IH vals ax' Hax). unfold fresh_slot.
  destruct pred; simpl in Ha |- *; [ rewrite Ha | ]; reflexivity.
Qed.

Lemma first_row_fresh key vals ax :
  axes key vals = Some ax ->
  first_row (zip key (zip_with fresh_slot key vals))
  = match first_digits key vals with
    | Some ds => Ok (map d_slot ds, map d_curr ds)
    | None => Raise RuntimeError
    end.
Proof.
  revert vals ax.
  induction key as [ | pred key IH ]; intros [ | val vals ] ax; simpl;
    try reflexivity.
  destruct (axis pred val) as [a | ] eqn:Ha; [ | discriminate ].
  destruct (axes key vals) as [ax' | ] eqn:Hax; [ | discriminate ].
  intros _. rewrite (IH vals ax' Hax). unfold fresh_slot.
  destruct pred; simpl in Ha |- *.
  - rewrite Ha. simpl.
    destruct a as [ | x xs ]; simpl;
      destruct (first_digits key vals); reflexivity.
  - destruct (first_digits key vals); reflexivity.
Qed.

Lemma first_digits_frame key vals ds :
  first_digits key vals = Some ds -> length key = length vals ->
  frame_of ds = Frame key vals (map d_slot ds) (map d_curr ds).
Proof.
  unfold frame_of. intros Hds Hlen.
  enough (map d_pred ds = key /\ map d_val ds = vals) as [-> ->];
    [ reflexivity | ].
  revert vals ds Hds Hlen.
  induction key as [ | pred key IH ]; intros [ | val vals ] ds; simpl;
    try discriminate; try (intros [= <-]; auto).
  destruct (first_digits key vals) as [ds' | ] eqn:Hds'; [ | discriminate ].
  intros Hds [= Hlen]. destruct (IH vals ds' Hds' Hlen) as [Hk Hv].
  destruct pred.
  - destruct (py_iter val) as [[ | x xs] | ]; try discriminate.
    injection Hds as <-. simpl. rewrite Hk, Hv. auto.
  - injection Hds as <-. simpl. rewrite Hk, Hv. auto.
Qed.

Lemma first_digits_ok key vals ds :
  first_digits key vals = Some ds -> Forall digit_ok ds.
Proof.
  revert vals ds.
  induction key as [ | pred key IH ]; intros [ | val vals ] ds; simpl;
    try (intros [= <-]; constructor).
  destruct (first_digits key vals) as [ds' | ] eqn:Hds'; [ | discriminate ].
  specialize (IH vals ds' Hds'). destruct pred.
  - destruct (py_iter val) as [[ | x xs] | ] eqn:Hval; try discriminate.
    intros [= <-]. constructor; [ | exact IH ]. simpl. auto.
  - intros [= <-]. constructor; [ exact I | exact IH ].
Qed.

Lemma first_digits_axes key vals ds ax :
  first_digits key vals = Some ds -> axes key vals = Some ax ->
  map d_axis ds = ax.
Proof.
  revert vals ds ax.
  induction key as [ | pred key IH ]; intros [ | val vals ] ds ax; simpl;
    try (intros [= <-] [= <-]; reflexivity).
  destruct (first_digits key vals) as [ds' | ] eqn:Hds'; [ | discriminate ].
  destruct (axes key vals) as [ax' | ] eqn:Hax;
    [ | destruct (axis pred val); discriminate ].
  specialize (IH vals ds' ax' Hds' Hax). destruct pred; simpl.
  - destruct (py_iter val) as [[ | x xs] | ] eqn:Hval; try discriminate.
    intros [= <-] [= <-]. simpl. rewrite IH. reflexivity.
  - intros [= <-] [= <-]. simpl. rewrite IH. reflexivity.
Qed.

(** No first row exactly when some selected cell is empty. *)
Lemma first_digits_None key vals ax :
  axes key vals = Some ax ->
  first_digits key vals = None <-> [] ∈ ax.
Proof.
  revert vals ax.
  induction key as [ | pred key IH ]; intros [ | val vals ] ax; simpl;
    try (intros [= <-]; split; [ discriminate | intros H; inversion H ]).
  destruct (axis pred val) as [a | ] eqn:Ha; [ | discriminate ].
  destruct (axes key vals) as [ax' | ] eqn:Hax; [ | discriminate ].
  intros [= <-]. specialize (IH vals ax' Hax).
  rewrite elem_of_cons.
  destruct (first_digits key vals) as [ds' | ].
  - assert (Hno : [] ∉ ax') by (rewrite <- IH; discriminate).
    destruct pred; simpl in Ha.
    + rewrite Ha. destruct a as [ | x xs ]; split; auto; try discriminate.
      intros [[=] | Hin]; contradiction.
    + injection Ha as <-. split; [ discriminate | ].
      intros [[=] | Hin]; contradiction.
  - split; [ intros _; right; apply IH; reflexivity | reflexivity ].
Qed.

Lemma remaining_first key vals ds :
  first_digits key vals = Some ds ->
  remaining ds = cartesian (map d_axis ds).
Proof.
  revert vals ds.
  induction key as [ | pred key IH ]; intros [ | val vals ] ds; simpl;
    try (intros [= <-]; reflexivity).
  destruct (first_digits key vals) as [ds' | ] eqn:Hds'; [ | discriminate ].
  specialize (IH vals ds' Hds'). destruct pred.
  - destruct (py_iter val) as [[ | x xs] | ]; try discriminate.
    intros [= <-]. simpl. rewrite IH. reflexivity.
  - intros [= <-]. simpl. rewrite IH, app_nil_r. reflexivity.
Qed.

(** The first call of [next]. *)
Lemma gen_next_fresh key vals ax :
  axes key vals = Some ax -> length key = length vals ->
  gen_next (Fresh vals key)
  = match first_digits key vals with
    | Some ds => (Yield (map d_curr ds), Suspended (frame_of ds))
    | None => (Error RuntimeError, Finished)
    end.
Proof.
  intros Hax Hlen. unfold gen_next.
  rewrite (make_iters_fresh key vals ax Hax). simpl.
  rewrite (first_row_fresh key vals ax Hax).
  destruct (first_digits key vals) as [ds | ] eqn:Hds; [ | reflexivity ].
  rewrite (first_digits_frame key vals ds Hds Hlen). reflexivity.
Qed.

(** ** The generator: from one row to the next *)

Lemma rewind_ok d : digit_ok d -> digit_ok (rewind d).
Proof. destruct d as [ v | v [ | x xs ] cur rest ]; simpl; auto. Qed.

Lemma rewind_axis d : d_axis (rewind d) = d_axis d.
Proof. destruct d as [ v | v [ | x xs ] cur rest ]; reflexivity. Qed.

Lemma rewind_val d : d_val (rewind d) = d_val d.
Proof. destruct d as [ v | v [ | x xs ] cur rest ]; reflexivity. Qed.

Lemma rewind_pred d : d_pred (rewind d) = d_pred d.
Proof. destruct d as [ v | v [ | x xs ] cur rest ]; reflexivity. Qed.

Lemma map_axis_rewind ds : map d_axis (map rewind ds) = map d_axis ds.
Proof. rewrite map_map. apply map_ext, rewind_axis. Qed.

Lemma incr_app ds1 ds2 :
  incr (ds1 ++ ds2)
  = match incr ds2 with
    | Some ds2' => Some (ds1 ++ ds2')
    | None =>
        match incr ds1 with
        | Some ds1' => Some (ds1' ++ map rewind ds2)
        | None => None
        end
    end.
Proof.
  induction ds1 as [ | d ds1 IH ]; simpl.
  - destruct (incr ds2); reflexivity.
  - rewrite IH. destruct (incr ds2) as [ds2' | ]; [ reflexivity | ].
    destruct (incr ds1) as [ds1' | ]; [ reflexivity | ].
    destruct d as [ v | v all cur [ | x rest ] ]; try reflexivity.
    simpl. rewrite map_app. reflexivity.
Qed.

Lemma incr_ok ds ds' :
  Forall digit_ok ds -> incr ds = Some ds' -> Forall digit_ok ds'.
Proof.
  intros Hok. revert ds'.
  induction Hok as [ | d ds Hd Hds IH ]; intros ds'; simpl; [ done | ].
  destruct (incr ds) as [ds'' | ].
  - intros [= <-]. constructor; [ exact Hd | apply IH; reflexivity ].
  - destruct d as [ v | v all cur [ | x rest ] ]; try discriminate.
    intros [= <-]. constructor; [ exact Hd | ].
    apply Forall_forall. intros d' Hd'.
    apply list_elem_of_In, in_map_iff in Hd' as (d & <- & Hin).
    apply rewind_ok. rewrite Forall_forall in Hds.
    apply Hds, list_elem_of_In, Hin.
Qed.

Lemma incr_axes ds ds' : incr ds = Some ds' -> map d_axis ds' = map d_axis ds.
Proof.
  revert ds'. induction ds as [ | d ds IH ]; intros ds'; simpl; [ done | ].
  destruct (incr ds) as [ds'' | ].
  - intros [= <-]. simpl. rewrite (IH ds''); reflexivity.
  - destruct d as [ v | v all cur [ | x rest ] ]; try discriminate.
    intros [= <-]. simpl. rewrite map_axis_rewind. reflexivity.
Qed.

Lemma incr_frame ds ds' :
  incr ds = Some ds' ->
  map d_pred ds' = map d_pred ds /\ map d_val ds' = map d_val ds.
Proof.
  revert ds'. induction ds as [ | d ds IH ]; intros ds'; simpl; [ done | ].
  destruct (incr ds) as [ds'' | ].
  - intros [= <-]. simpl. destruct (IH ds'' eq_refl) as [-> ->]. auto.
  - destruct d as [ v | v all cur [ | x rest ] ]; try discriminate.
    intros [= <-]. simpl. rewrite !map_map.
    split; f_equal; apply map_ext; [ apply rewind_pred | apply rewind_val ].
Qed.

Lemma remaining_rewind ds :
  Forall digit_ok ds ->
  remaining (map rewind ds) = cartesian (map d_axis ds).
Proof.
  induction 1 as [ | d ds Hd _ IH ]; simpl; [ reflexivity | ].
  destruct d as [ v | v [ | x xs ] cur rest ]; simpl.
  - rewrite IH, app_nil_r. reflexivity.
  - destruct Hd as [_ Hne]. done.
  - rewrite IH, map_axis_rewind. reflexivity.
Qed.

(** The rows still to come are the row shown followed by those of the next
    state of the odometer. *)
Lemma remaining_incr ds :
  Forall digit_ok ds ->
  remaining ds
  = map d_curr ds
    :: match incr ds with Some ds' => remaining ds' | None => [] end.
Proof.
  induction 1 as [ | d ds Hd Hds IH ]; simpl; [ reflexivity | ].
  destruct (incr ds) as [ds' | ] eqn:Hincr.
  - destruct d as [ v | v all cur rest ]; simpl; rewrite IH; simpl.
    + reflexivity.
    + rewrite (incr_axes ds ds' Hincr). reflexivity.
  - destruct d as [ v | v all cur [ | x rest ] ]; simpl; rewrite IH; simpl.
    + reflexivity.
    + reflexivity.
    + rewrite (remaining_rewind ds Hds), map_axis_rewind. reflexivity.
Qed.

Lemma countdown_pairs (key : list bool) :
  zip (reverse key) (countdown (length key))
  = reverse (zip key (seq 0 (length key))).
Proof.
  unfold countdown.
  induction key as [ | pred key IH ] using rev_ind; [ reflexivity | ].
  rewrite length_app, Nat.add_1_r, seq_S, reverse_snoc. simpl.
  rewrite (reverse_snoc (seq 0 (length key))). simpl.
  rewrite IH, zip_with_app by (rewrite length_seq; reflexivity).
  simpl. rewrite reverse_snoc. reflexivity.
Qed.

(** The [for] loop over a prefix of the positions, whatever stands to its
    right, is a step of the odometer. *)
Lemma advance_incr ds vals_r iters_r curr_r :
  Forall digit_ok ds ->
  length iters_r = length curr_r ->
  advance (reverse (zip (map d_pred ds) (seq 0 (length ds))))
    (map d_val ds ++ vals_r) (map d_slot ds ++ iters_r)
    (map d_curr ds ++ curr_r)
  = match incr ds with
    | Some ds' => Broke (map d_slot ds' ++ iters_r) (map d_curr ds' ++ curr_r)
    | None => Exhausted
    end.
Proof.
  revert vals_r iters_r curr_r.
  induction ds as [ | d ds IH ] using rev_ind;
    intros vals_r iters_r curr_r Hok Hlen; [ reflexivity | ].
  apply Forall_app in Hok as [Hds Hd]. apply Forall_inv in Hd.
  rewrite !map_app, length_app, Nat.add_1_r, seq_S. simpl.
  rewrite zip_with_app by (rewrite length_map, length_seq; reflexivity).
  simpl. rewrite reverse_snoc, incr_app, <- !app_assoc. simpl.
  assert (Hat : forall {A} (f : digit -> A) (x : A) (r : list A),
             (map f ds ++ x :: r) !! length ds = Some x).
  { intros A f x r. apply list_lookup_middle. rewrite length_map. reflexivity. }
  assert (Hset : forall {A} (f : digit -> A) (x y : A) (r : list A),
             <[length ds := y]> (map f ds ++ x :: r) = map f ds ++ y :: r).
  { intros A f x y r.
    rewrite insert_app_r_alt by (rewrite length_map; lia).
    rewrite length_map, Nat.sub_diag. reflexivity. }
  assert (Hin : forall (x : value) (r : list value),
             (length ds < length (map d_curr ds ++ x :: r))%nat).
  { intros x r. rewrite length_app, length_map. simpl. lia. }
  destruct d as [ v | v all cur [ | x rest ] ]; simpl.
  - rewrite (IH (v :: vals_r) (Raw v :: iters_r) (v :: curr_r) Hds)
      by (simpl; lia).
    destruct (incr ds) as [ds' | ]; [ | reflexivity ].
    rewrite !map_app, <- !app_assoc. reflexivity.
  - rewrite Hat. simpl. rewrite Hat.
    destruct Hd as [Hiter Hne]. rewrite Hiter.
    destruct all as [ | y ys ]; [ done | ].
    unfold list_set. rewrite decide_True by apply Hin.
    rewrite !Hset.
    rewrite (IH (v :: vals_r) (It ys :: iters_r) (y :: curr_r) Hds)
      by (simpl; lia).
    destruct (incr ds) as [ds' | ]; [ | reflexivity ].
    rewrite !map_app, <- !app_assoc. reflexivity.
  - rewrite Hat. simpl.
    unfold list_set. rewrite decide_True by apply Hin.
    rewrite !Hset, !map_app, <- !app_assoc. reflexivity.
Qed.

(** A call of [next] on a suspended generator. *)
Lemma gen_next_suspended ds :
  Forall digit_ok ds ->
  gen_next (Suspended (frame_of ds))
  = match incr ds with
    | Some ds' => (Yield (map d_curr ds'), Suspended (frame_of ds'))
    | None => (StopIteration, Finished)
    end.
Proof.
  intros Hok. unfold gen_next, frame_of. simpl.
  rewrite length_map, <- (length_map d_pred ds), countdown_pairs, length_map.
  pose proof (advance_incr ds [] [] [] Hok eq_refl) as Hadv.
  rewrite !app_nil_r in Hadv. rewrite Hadv.
  destruct (incr ds) as [ds' | ] eqn:Hincr; [ | reflexivity ].
  destruct (incr_frame ds ds' Hincr) as [-> ->].
  rewrite !app_nil_r. reflexivity.
Qed.

Lemma drain_S fuel g :
  drain (S fuel) g
  = match gen_next g with
    | (Yield row, g') => (row :: (drain fuel g').1, (drain fuel g').2)
    | (StopIteration, _) => ([], Stopped)
    | (Error e, _) => ([], Failed e)
    end.
Proof. reflexivity. Qed.

(** Draining a suspended generator gives the rows after the one shown, and
    ends by the generator's return. *)
Lemma drain_suspended fuel ds :
  Forall digit_ok ds ->
  (length (remaining ds) <= fuel)%nat ->
  drain fuel (Suspended (frame_of ds)) = (tail (remaining ds), Stopped).
Proof.
  revert ds. induction fuel as [ | fuel IH ]; intros ds Hok Hfuel.
  - rewrite remaining_incr in Hfuel by exact Hok. simpl in Hfuel. lia.
  - rewrite drain_S, gen_next_suspended by exact Hok.
    rewrite remaining_incr in Hfuel |- * by exact Hok. simpl in Hfuel |- *.
    destruct (incr ds) as [ds' | ] eqn:Hincr; [ | reflexivity ].
    pose proof (incr_ok ds ds' Hok Hincr) as Hok'.
    rewrite IH by (auto; lia).
    rewrite (remaining_incr ds') by exact Hok'. reflexivity.
Qed.

(** The whole traversal: the rows are the product of the axes; the
    generator returns after the last one, or, when a selected cell is empty,
    raises at its first [next]. *)
Lemma drain_fresh fuel key vals ax :
  axes key vals = Some ax -> length key = length vals ->
  (length (cartesian ax) < fuel)%nat ->
  drain fuel (Fresh vals key)
  = (cartesian ax,
     match first_digits key vals with
     | Some _ => Stopped
     | None => Failed RuntimeError
     end).
Proof.
  intros Hax Hlen Hfuel. destruct fuel as [ | fuel ]; [ lia | ].
  rewrite drain_S, (gen_next_fresh key vals ax Hax Hlen).
  destruct (first_digits key vals) as [ds | ] eqn:Hds.
  - pose proof (first_digits_ok key vals ds Hds) as Hok.
    pose proof (remaining_first key vals ds Hds) as Hrem.
    rewrite (first_digits_axes key vals ds ax Hds Hax) in Hrem.
    rewrite drain_suspended by (auto; rewrite Hrem; lia).
    simpl. rewrite <- Hrem, (remaining_incr ds Hok). reflexivity.
  - apply (first_digits_None key vals ax Hax) in Hds.
    rewrite (cartesian_empty_axis ax Hds). reflexivity.
Qed.

(** ** The selective cartesian product *)

(** A mask of booleans is taken as it is. *)
Lemma conditional_product_mask vals (key : list bool) :
  conditional_product vals (KeyObj (JList (map JBool key)))
  = Ok (Fresh vals key).
Proof.
  simpl. rewrite map_map. simpl. rewrite map_id. reflexivity.
Qed.

(** A predicate, and the default one, give a mask aligned with the row. *)
Lemma conditional_product_aligned vals sel key :
  (sel = KeyObj JNull \/ exists pred, sel = KeyFun pred) ->
  conditional_product vals sel = Ok (Fresh vals key) ->
  length key = length vals.
Proof.
  intros [-> | [pred ->]]; simpl; intros [= <-]; apply length_map.
Qed.

(** With the default selector every selected cell is iterable. *)
Lemma conditional_product_default vals :
  exists ax, conditional_product vals (KeyObj JNull)
             = Ok (Fresh vals (map isiterable vals))
             /\ axes (map isiterable vals) vals = Some ax.
Proof.
  induction vals as [ | val vals [ax [_ Hax]] ]; simpl; [ eauto | ].
  rewrite Hax. unfold axis, isiterable.
  destruct (py_iter val) as [elems | ]; eauto.
Qed.

Lemma unselected_in_place key vals ax row :
  axes key vals = Some ax -> length key = length vals ->
  row ∈ cartesian ax ->
  length row = length vals
  /\ forall i, key !! i = Some false -> row !! i = vals !! i.
Proof.
  intros Hax Hlen Hrow. apply cartesian_rows in Hrow.
  split.
  - rewrite (Forall2_length _ _ _ Hrow). apply (length_axes key); assumption.
  - intros i Hi.
    destruct (lookup_lt_is_Some_2 vals i) as [v Hv].
    { rewrite <- Hlen. apply lookup_lt_is_Some_1. eauto. }
    pose proof (axes_lookup_fixed key vals ax i v Hax Hi Hv) as Ha.
    destruct (Forall2_lookup_r _ _ _ _ _ Hrow Ha) as (x & Hx & Hin).
    apply list_elem_of_singleton in Hin as ->. congruence.
Qed.

(** C7: for every row, when the selector is an object (not [None], which
    stands for the default predicate) that is neither callable nor iterable,
    the call of [conditional_product] itself raises [ValueError]: no
    generator is made, so no tuple is yielded and no cell is iterated. *)
Theorem invalid_selector_raises vals v :
  v <> JNull -> isiterable v = false ->
  conditional_product vals (KeyObj v) = Raise ValueError.
Proof.
  unfold isiterable. intros Hnone Hiter.
  destruct v; try done; simpl in *; discriminate.
Qed.

Lemma invalid_selector_raises_witness :
  JNum 3 <> JNull /\ isiterable (JNum 3) = false
  /\ conditional_product [JList [JNum 1; JNum 2]] (KeyObj (JNum 3))
     = Raise ValueError.
Proof.
  assert (H1 : JNum 3 <> JNull) by discriminate.
  assert (H2 : isiterable (JNum 3) = false) by reflexivity.
  split; [ exact H1 | split; [ exact H2 | ] ].
  exact (invalid_selector_raises [JList [JNum 1; JNum 2]] (JNum 3) H1 H2).
Defined.

(** C2: for a row with an empty selected cell the product is empty, and the
    expansion should yield no row and return.  [_curr_gen] does not: for
    every row and aligned mask whose selected cells are iterable, one of
    them being empty, the call returns a generator whose first [next]
    raises [RuntimeError] (the [next] that fills [curr] meets the empty
    iterator, and its [StopIteration], which only the loop further down
    handles, leaves the generator): the traversal ends by that exception
    and not by the generator's return. *)
Theorem empty_selected_cell_raises vals key fuel :
  length key = length vals ->
  Forall (fun v => isiterable v = true) (selected_cells key vals) ->
  Exists (fun v => cell_length v = O) (selected_cells key vals) ->
  conditional_product vals (KeyObj (JList (map JBool key)))
  = Ok (Fresh vals key)
  /\ gen_next (Fresh vals key) = (Error RuntimeError, Finished)
  /\ drain (S fuel) (Fresh vals key) = ([], Failed RuntimeError)
  /\ drain (S fuel) (Fresh vals key) <> ([], Stopped).
Proof.
  intros Hlen Hiter Hex.
  destruct (axes_selected_iterable key vals Hlen Hiter) as [ax Hax].
  pose proof (axes_empty_selected key vals ax Hax Hex) as Hempty.
  pose proof (proj2 (first_digits_None key vals ax Hax) Hempty) as Hnone.
  assert (Hnext : gen_next (Fresh vals key) = (Error RuntimeError, Finished)).
  { rewrite (gen_next_fresh key vals ax Hax Hlen), Hnone. reflexivity. }
  split; [ apply conditional_product_mask | ].
  split; [ exact Hnext | ].
  rewrite drain_S, Hnext. split; [ reflexivity | discriminate ].
Qed.

Lemma empty_selected_cell_raises_witness :
  drain 1 (Fresh [JList [JNum 1; JNum 2]; JList []] [true; true])
  = ([], Failed RuntimeError).
Proof.
  pose (vals := [JList [JNum 1; JNum 2]; JList []]).
  pose (key := [true; true]).
  assert (Hlen : length key = length vals) by reflexivity.
  assert (Hiter : Forall (fun v => isiterable v = true)
                    (selected_cells key vals)).
  { repeat constructor. }
  assert (Hex : Exists (fun v => cell_length v = O)
                  (selected_cells key vals)).
  { apply Exists_cons_tl, Exists_cons_hd. reflexivity. }
  exact (proj1 (proj2 (proj2
           (empty_selected_cell_raises vals key 0 Hlen Hiter Hex)))).
Defined.

(** X18: for every row and boolean mask aligned with it whose selected
    cells are iterable and not empty, the generator that
    [conditional_product] returns yields exactly as many rows as the
    product of the lengths of the selected cells and then returns; when no
    cell is selected it yields the row itself once and returns. *)
Theorem expansion_count_rows vals key fuel :
  length key = length vals ->
  Forall (fun v => isiterable v = true) (selected_cells key vals) ->
  Forall (fun v => cell_length v <> O) (selected_cells key vals) ->
  (expansion_count key vals < fuel)%nat ->
  conditional_product vals (KeyObj (JList (map JBool key)))
  = Ok (Fresh vals key)
  /\ length (drain fuel (Fresh vals key)).1 = expansion_count key vals
  /\ (drain fuel (Fresh vals key)).2 = Stopped
  /\ (selected_cells key vals = [] ->
      drain fuel (Fresh vals key) = ([vals], Stopped)).
Proof.
  intros Hlen Hiter Hne Hfuel.
  destruct (axes_selected_iterable key vals Hlen Hiter) as [ax Hax].
  pose proof (axes_expansion_count key vals ax Hax) as Hcount.
  rewrite <- length_cartesian in Hcount.
  rewrite (drain_fresh fuel key vals ax Hax Hlen) by lia.
  assert (Hsome : first_digits key vals <> None).
  { intros Hds. apply (first_digits_None key vals ax Hax) in Hds.
    exact (axes_nonempty_selected key vals ax Hax Hne Hds). }
  destruct (first_digits key vals) as [ds | ]; [ | done ].
  split; [ apply conditional_product_mask | ].
  split; [ exact Hcount | ].
  split; [ reflexivity | ].
  intros Hsel.
  rewrite (axes_unselected key vals ax Hax Hsel Hlen), cartesian_singletons.
  reflexivity.
Qed.

Lemma expansion_count_rows_witness :
  length (drain 5 (Fresh [JList [JNum 1; JNum 2]; JNum 5;
                          JList [JNum 3; JNum 4]]
                     [true; false; true])).1 = 4%nat
  /\ (drain 5 (Fresh [JList [JNum 1; JNum 2]; JNum 5; JList [JNum 3; JNum 4]]
                  [true; false; true])).2 = Stopped.
Proof.
  pose (vals := [JList [JNum 1; JNum 2]; JNum 5; JList [JNum 3; JNum 4]]).
  pose (key := [true; false; true]).
  assert (Hlen : length key = length vals) by reflexivity.
  assert (Hiter : Forall (fun v => isiterable v = true)
                    (selected_cells key vals)).
  { repeat constructor. }
  assert (Hne : Forall (fun v => cell_length v <> O)
                  (selected_cells key vals)).
  { repeat constructor; discriminate. }
  assert (Hfuel : (expansion_count key vals < 5)%nat).
  { vm_compute. lia. }
  destruct (expansion_count_rows vals key 5 Hlen Hiter Hne Hfuel)
    as (_ & Hcount & Hstop & _).
  split; [ exact Hcount | exact Hstop ].
Defined.

(** C5: for every row and selector whose mask is aligned with the row and
    selects iterable cells, the rows yielded are, in this order, the n-ary
    cartesian product of the axes (the elements of each selected cell, each
    unselected cell alone), the first axis being the most significant and
    the last selected position varying fastest; every yielded row has the
    length of the row and holds each unselected cell itself at its own
    position.  Nothing is asked of the unselected cells: they are never
    iterated. *)
Theorem expansion_order vals sel key ax fuel :
  conditional_product vals sel = Ok (Fresh vals key) ->
  length key = length vals ->
  axes key vals = Some ax ->
  (length (cartesian ax) < fuel)%nat ->
  (drain fuel (Fresh vals key)).1 = cartesian ax
  /\ Forall (fun row => length row = length vals
                        /\ forall i, key !! i = Some false ->
                                     row !! i = vals !! i)
       (drain fuel (Fresh vals key)).1.
Proof.
  intros _ Hlen Hax Hfuel.
  rewrite (drain_fresh fuel key vals ax Hax Hlen Hfuel). simpl.
  split; [ reflexivity | ].
  apply Forall_forall. intros row Hrow.
  apply (unselected_in_place key vals ax); assumption.
Qed.

Lemma expansion_order_witness :
  (drain 5 (Fresh [JList [JNum 1; JNum 2]; JNum 5; JList [JNum 3; JNum 4]]
              [true; false; true])).1
  = [[JNum 1; JNum 5; JNum 3]; [JNum 1; JNum 5; JNum 4];
     [JNum 2; JNum 5; JNum 3]; [JNum 2; JNum 5; JNum 4]].
Proof.
  pose (vals := [JList [JNum 1; JNum 2]; JNum 5; JList [JNum 3; JNum 4]]).
  pose (sel := KeyObj (JList [JBool true; JBool false; JBool true])).
  pose (key := [true; false; true]).
  assert (Hcall : conditional_product vals sel = Ok (Fresh vals key))
    by reflexivity.
  assert (Hlen : length key = length vals) by reflexivity.
  assert (Hax : axes key vals
                = Some [[JNum 1; JNum 2]; [JNum 5]; [JNum 3; JNum 4]])
    by reflexivity.
  assert (Hfuel : (length (cartesian [[JNum 1; JNum 2]; [JNum 5];
                                      [JNum 3; JNum 4]]) < 5)%nat).
  { vm_compute. lia. }
  exact (proj1 (expansion_order vals sel key _ 5 Hcall Hlen Hax Hfuel)).
Defined.

(** * Further properties of the interpreter *)

(** A broadcast of the application of [tuple] over the elements of [json]
    returns exactly when every element application returns. *)
Lemma for_each_returns tuple json r :
  (exists depth,
      (try! rs := for_each json (apply depth tuple) in Ok (JList rs)) = Ok r)
  <-> exists elems rs, py_iter json = Some elems /\ r = JList rs
                       /\ Forall2 (returns tuple) elems rs.
Proof.
  unfold for_each. split.
  - intros [depth H]. apply bind_Ok in H as (rs & Hrs & [= <-]).
    destruct (py_iter json) as [elems | ]; [ | discriminate ].
    exists elems, rs. repeat split.
    apply comprehension_Ok in Hrs.
    eapply Forall2_impl; [ exact Hrs | ].
    intros v r' Hv. exists depth. exact Hv.
  - intros (elems & rs & -> & -> & Hall).
    apply returns_all in Hall as [depth Hdepth].
    exists depth. rewrite Hdepth. reflexivity.
Qed.

Lemma returns_keep_all rest json r :
  returns (Tok KEEP_ALL :: rest) json r
  <-> exists depth,
      (try! rs := for_each json (apply depth rest) in Ok (JList rs)) = Ok r.
Proof.
  split.
  - intros [[ | depth] H]; [ discriminate | ]. exists depth. exact H.
  - intros [depth H]. exists (S depth). exact H.
Qed.

Lemma returns_name_list s rest l r :
  returns (Key (KStr s) :: rest) (JList l) r
  <-> exists depth,
      (try! rs := for_each (JList l) (apply depth (Key (KStr s) :: rest)) in
       Ok (JList rs)) = Ok r.
Proof.
  split.
  - intros [[ | depth] H]; [ discriminate | ]. exists depth. exact H.
  - intros [depth H]. exists (S depth). exact H.
Qed.

(** X1: [KEEP_ALL] applies the rest of the specifier to each element of a
    list, to each key of a dict and to each character of a str, whatever
    the next step is: the application returns exactly when the value is
    iterable and every element application returns, and the result is the
    list of those results in order. *)
Theorem keep_all_maps_rest rest json r :
  returns (Tok KEEP_ALL :: rest) json r
  <-> exists elems rs, py_iter json = Some elems /\ r = JList rs
                       /\ Forall2 (returns rest) elems rs.
Proof. rewrite returns_keep_all. apply for_each_returns. Qed.

(** X2: on a list, [KEEP_ALL] in front of a name changes nothing: the name
    is broadcast over the elements anyway. *)
Theorem keep_all_before_name s rest l r :
  returns (Tok KEEP_ALL :: Key (KStr s) :: rest) (JList l) r
  <-> returns (Key (KStr s) :: rest) (JList l) r.
Proof.
  rewrite returns_keep_all, returns_name_list, !for_each_returns.
  reflexivity.
Qed.

Lemma returns_empty json r : returns [] json r <-> r = json.
Proof.
  split.
  - intros [[ | depth] H]; [ discriminate | ]. injection H as <-. reflexivity.
  - intros ->. exists 1%nat. reflexivity.
Qed.

Lemma returns_key name rest json sub r :
  getitem json name = Ok sub ->
  returns (Key name :: rest) json r <-> returns rest sub r.
Proof.
  intros Hget. split.
  - intros [[ | depth] H]; [ discriminate | ]. simpl in H. rewrite Hget in H.
    destruct rest as [ | st rest ].
    + injection H as <-. apply returns_empty. reflexivity.
    + exists depth. exact H.
  - destruct rest as [ | st rest ].
    + intros ->%returns_empty. exists 1%nat. simpl. rewrite Hget. reflexivity.
    + intros [depth H]. exists (S depth). simpl. rewrite Hget. exact H.
Qed.

(** Along a path of keys that index directly, the specifier goes on with
    what the path reaches. *)
Lemma returns_follow path rest json sub r :
  follow path json = Ok sub ->
  returns (map Key path ++ rest) json r <-> returns rest sub r.
Proof.
  revert json. induction path as [ | name path IH ]; intros json; simpl.
  - intros [= ->]. reflexivity.
  - destruct (getitem json name) as [sub' | e] eqn:Hget; [ | discriminate ].
    simpl. intros Hpath.
    rewrite (returns_key name _ json sub' r Hget). apply IH, Hpath.
Qed.

Lemma getitem_returns_iff self specifier p :
  getitem_returns self specifier p
  <-> returns specifier (pjson self) (pjson p).
Proof.
  unfold getitem_returns, JsonProcessor_getitem, returns.
  destruct p as [v]. simpl. split; intros [depth H]; exists depth.
  - apply bind_Ok in H as (v' & Hv & [= <-]). exact Hv.
  - rewrite H. reflexivity.
Qed.

(** X3: indexing a processor twice is indexing it once with the two
    specifiers put end to end, when the first one is a path of keys that
    each index directly (no broadcast): [self[path + rest]] returns what
    [self[path][rest]] returns. *)
Theorem getitem_chain self path rest sub p :
  follow path (pjson self) = Ok sub ->
  getitem_returns self (map Key path ++ rest) p
  <-> exists mid, getitem_returns self (map Key path) mid
                  /\ getitem_returns mid rest p.
Proof.
  intros Hpath. rewrite getitem_returns_iff.
  rewrite (returns_follow path rest _ sub _ Hpath).
  split.
  - intros H. exists (Processor sub). rewrite !getitem_returns_iff. simpl.
    split; [ | exact H ].
    rewrite <- (app_nil_r (map Key path)).
    apply (returns_follow path [] _ sub _ Hpath), returns_empty. reflexivity.
  - intros (mid & Hmid & Hrest). rewrite !getitem_returns_iff in Hmid, Hrest.
    rewrite <- (app_nil_r (map Key path)) in Hmid.
    apply (returns_follow path [] _ sub _ Hpath), returns_empty in Hmid.
    rewrite Hmid in Hrest. exact Hrest.
Qed.

Lemma getitem_chain_witness :
  getitem_returns
    (Processor (JDict [("a"%string, JList [JNum 7; JNum 8])]))
    [Key (KStr "a"); Key (KInt 1)] (Processor (JNum 8)).
Proof.
  apply (proj2 (getitem_chain
                  (Processor (JDict [("a"%string, JList [JNum 7; JNum 8])]))
                  [KStr "a"] [Key (KInt 1)] (JList [JNum 7; JNum 8])
                  (Processor (JNum 8)) eq_refl)).
  exists (Processor (JList [JNum 7; JNum 8])).
  split; exists 1%nat; reflexivity.
Defined.

(** X4: a name applied to a non-empty string never returns, wherever a path
    of directly indexing keys reaches that string: each character is again
    a string of one character to which the same specifier is applied, so
    the call raises [RecursionError] under every recursion limit. *)
Theorem name_on_string_never_returns depth path s rest json c cs :
  follow path json = Ok (JStr (String c cs)) ->
  apply depth (map Key path ++ Key (KStr s) :: rest) json
  = Raise RecursionError.
Proof.
  revert depth json.
  induction path as [ | name path IH ]; intros depth json; simpl.
  - intros [= ->]. apply apply_name_str.
  - destruct (getitem json name) as [sub | e] eqn:Hget; [ | discriminate ].
    simpl. intros Hpath. destruct depth as [ | depth ]; [ reflexivity | ].
    simpl. rewrite Hget.
    destruct (map Key path ++ Key (KStr s) :: rest) eqn:Hspec.
    + destruct path; discriminate.
    + apply IH, Hpath.
Qed.

Lemma name_on_string_never_returns_witness :
  apply 1000 [Key (KStr "name"); Key (KStr "first")]
    (JDict [("name"%string, JStr "Ann")])
  = Raise RecursionError.
Proof.
  exact (name_on_string_never_returns 1000 [KStr "name"] "first" []
           (JDict [("name"%string, JStr "Ann")]) _ _ eq_refl).
Defined.

Lemma flatten_flat l :
  Forall (fun x => is_list x = false) l -> flatten (JList l) = l.
Proof.
  intros Hl. rewrite flatten_flatten_ref. simpl.
  induction Hl as [ | x l Hx _ IH ]; simpl; [ reflexivity | ].
  rewrite IH. destruct x; try discriminate; reflexivity.
Qed.

Lemma flatten_is_flat v : Forall (fun x => is_list x = false) (flatten v).
Proof. rewrite flatten_flatten_ref. apply flatten_ref_flat. Qed.

Lemma unpack_flat l :
  Forall (fun x => is_list x = false) l -> unpack (JList l) = Ok (JList l).
Proof.
  intros Hl. unfold unpack, py_sum. simpl.
  destruct Hl as [ | x l Hx _ ]; [ reflexivity | ].
  rewrite sum_from_other; [ reflexivity | ].
  simpl. rewrite Hx. reflexivity.
Qed.

Lemma apply_flatten depth rest json :
  apply (S depth) (Tok FLATTEN :: rest) json
  = try! v := apply depth rest json in Ok (JList (flatten v)).
Proof. reflexivity. Qed.

Lemma apply_unpack depth rest json :
  apply (S depth) (Tok UNPACK :: rest) json
  = try! v := apply depth rest json in unpack v.
Proof. reflexivity. Qed.

(** X5: flattening twice is flattening once: [FLATTEN, FLATTEN, ...] gives
    what [FLATTEN, ...] gives, one level of recursion deeper. *)
Theorem flatten_idempotent depth rest json :
  apply (S (S depth)) (Tok FLATTEN :: Tok FLATTEN :: rest) json
  = apply (S depth) (Tok FLATTEN :: rest) json.
Proof.
  rewrite (apply_flatten (S depth)), apply_flatten.
  destruct (apply depth rest json) as [v | e]; [ | reflexivity ].
  unfold bind. rewrite (flatten_flat (flatten v)) by apply flatten_is_flat.
  reflexivity.
Qed.

(** X6: [UNPACK] leaves a flattened result as it is: [UNPACK, FLATTEN, ...]
    gives what [FLATTEN, ...] gives. *)
Theorem unpack_after_flatten depth rest json :
  apply (S (S depth)) (Tok UNPACK :: Tok FLATTEN :: rest) json
  = apply (S depth) (Tok FLATTEN :: rest) json.
Proof.
  rewrite apply_unpack, apply_flatten.
  destruct (apply depth rest json) as [v | e]; [ | reflexivity ].
  unfold bind. apply unpack_flat, flatten_is_flat.
Qed.

Lemma flatten_ref_concat l :
  forallb is_list l = true ->
  flatten_ref (JList (concat (map children l))) = flatten_ref (JList l).
Proof.
  simpl. induction l as [ | x l IH ]; simpl; [ reflexivity | ].
  intros [Hx Hl]%andb_prop. destruct x; try discriminate. simpl.
  rewrite map_app, concat_app, (IH Hl). reflexivity.
Qed.

(** X7: unpacking a list does not change what flattening gives: the leaves
    of [unpack(l)] are those of [l], in the same order. *)
Theorem flatten_of_unpack l u :
  unpack (JList l) = Ok u -> flatten u = flatten (JList l).
Proof.
  intros H. unfold unpack, py_sum in H. simpl in H.
  destruct (forallb is_list l) eqn:Hall.
  - rewrite sum_from_lists in H by exact Hall. injection H as <-.
    rewrite !flatten_flatten_ref. apply flatten_ref_concat, Hall.
  - rewrite sum_from_other in H by exact Hall. injection H as <-.
    reflexivity.
Qed.

Lemma flatten_of_unpack_witness :
  flatten (JList [JNum 1; JList [JNum 2]; JNum 3])
  = flatten (JList [JList [JNum 1; JList [JNum 2]]; JList [JNum 3]]).
Proof.
  exact (flatten_of_unpack
           [JList [JNum 1; JList [JNum 2]]; JList [JNum 3]]
           (JList [JNum 1; JList [JNum 2]; JNum 3]) eq_refl).
Defined.

Lemma unpack_not_list_witness :
  unpack (JDict [("a"%string, JList [])])
  = Ok (JDict [("a"%string, JList [])]).
Proof.
  exact (unpack_not_list (JDict [("a"%string, JList [])]) eq_refl
           ltac:(discriminate)).
Defined.

(** * Further properties of the selective cartesian product *)

Lemma make_iters_not_iterable key vals :
  Exists (fun v => isiterable v = false) (selected_cells key vals) ->
  make_iters key vals = Raise TypeError.
Proof.
  unfold make_iters. revert vals.
  induction key as [ | pred key IH ]; intros [ | val vals ]; simpl;
    try (intros H; inversion H; fail).
  destruct pred; simpl.
  - intros [Hval | Hrest]%Exists_cons.
    + unfold isiterable in Hval.
      destruct (py_iter val); [ discriminate | reflexivity ].
    + destruct (py_iter val); [ | reflexivity ].
      simpl. rewrite (IH vals Hrest). reflexivity.
  - intros Hrest. rewrite (IH vals Hrest). reflexivity.
Qed.

(** X11: when the mask selects a cell that cannot be iterated, the call of
    [conditional_product] still returns a generator; the [TypeError] is
    raised by the first [next], before any row is yielded. *)
Theorem selected_not_iterable_raises vals key fuel :
  Exists (fun v => isiterable v = false) (selected_cells key vals) ->
  conditional_product vals (KeyObj (JList (map JBool key)))
  = Ok (Fresh vals key)
  /\ drain (S fuel) (Fresh vals key) = ([], Failed TypeError).
Proof.
  intros Hsel. split; [ apply conditional_product_mask | ].
  rewrite drain_S. unfold gen_next.
  rewrite (make_iters_not_iterable key vals Hsel). reflexivity.
Qed.

Lemma selected_not_iterable_raises_witness :
  drain 1 (Fresh [JList [JNum 1; JNum 2]; JNum 5] [true; true])
  = ([], Failed TypeError).
Proof.
  refine (proj2 (selected_not_iterable_raises
                   [JList [JNum 1; JNum 2]; JNum 5] [true; true] 0 _)).
  apply Exists_cons_tl, Exists_cons_hd. reflexivity.
Defined.

Lemma axes_default vals :
  axes (map isiterable vals) vals = Some (default_axes vals).
Proof.
  induction vals as [ | val vals IH ]; simpl; [ reflexivity | ].
  rewrite IH. unfold axis, isiterable.
  destruct (py_iter val); reflexivity.
Qed.

(** X12: without a key every cell that can be iterated is expanded, a list
    over its elements, a dict over its keys and a str over its characters,
    and the other cells are held: the rows are the product of these axes in
    order, whatever the row is; the generator returns after them unless an
    iterable cell is empty, in which case its first [next] raises
    [RuntimeError]. *)
Theorem default_selector_expands vals fuel :
  (length (cartesian (default_axes vals)) < fuel)%nat ->
  conditional_product vals (KeyObj JNull)
  = Ok (Fresh vals (map isiterable vals))
  /\ (drain fuel (Fresh vals (map isiterable vals))).1
     = cartesian (default_axes vals)
  /\ ([] ∉ default_axes vals ->
      (drain fuel (Fresh vals (map isiterable vals))).2 = Stopped)
  /\ ([] ∈ default_axes vals ->
      (drain fuel (Fresh vals (map isiterable vals))).2
      = Failed RuntimeError).
Proof.
  intros Hfuel. split; [ reflexivity | ].
  pose proof (axes_default vals) as Hax.
  rewrite (drain_fresh fuel _ vals _ Hax (length_map _ _) Hfuel). simpl.
  split; [ reflexivity | ].
  pose proof (first_digits_None _ vals _ Hax) as Hnone.
  destruct (first_digits (map isiterable vals) vals).
  - split; [ reflexivity | ]. intros Hin. apply Hnone in Hin. discriminate.
  - split; [ | reflexivity ]. intros Hout. destruct Hout. apply Hnone.
    reflexivity.
Qed.

Lemma default_selector_expands_witness :
  (drain 3 (Fresh [JStr "ab"; JNum 1] [true; false])).1
  = [[JStr "a"; JNum 1]; [JStr "b"; JNum 1]].
Proof.
  exact (proj1 (proj2 (default_selector_expands [JStr "ab"; JNum 1] 3
                         ltac:(vm_compute; lia)))).
Defined.

(** * Properties of the table of [make_csv] *)

(** The row at a position exists exactly when every column has an element
    there, and is made of these elements. *)
Lemma zip_rows_lookup columns i row :
  zip_rows columns !! i = Some row
  <-> columns <> [] /\ Forall2 (fun col x => col !! i = Some x) columns row.
Proof.
  revert row. induction columns as [ | c columns IH ]; intros row.
  - simpl. split; [ discriminate | intros [H _]; done ].
  - destruct columns as [ | c' columns ].
    + simpl. rewrite list_lookup_fmap. split.
      * destruct (c !! i) as [x | ] eqn:Hx; [ | discriminate ].
        intros [= <-]. split; [ discriminate | ].
        constructor; [ exact Hx | constructor ].
      * intros [_ H]. inversion H as [ | ? x ? r Hx Hr ]; subst.
        inversion Hr; subst. rewrite Hx. reflexivity.
    + change (zip_rows (c :: c' :: columns))
        with (zip_with cons c (zip_rows (c' :: columns))).
      rewrite lookup_zip_with_Some. split.
      * intros (x & r & -> & Hx & Hr). apply IH in Hr as [_ Hr].
        split; [ discriminate | constructor; assumption ].
      * intros [_ H]. inversion H as [ | ? x ? r Hx Hr ]; subst.
        exists x, r. repeat split; [ exact Hx | ].
        apply IH. split; [ discriminate | exact Hr ].
Qed.

Lemma py_zip_lists (columns : list (list value)) :
  py_zip (map JList columns) = Ok (zip_rows columns).
Proof.
  unfold py_zip.
  assert (H : comprehension
                (fun c => match py_iter c with
                          | Some elems => Ok elems
                          | None => Raise TypeError
                          end) (map JList columns) = Ok columns).
  { induction columns as [ | c columns IH ]; simpl; [ reflexivity | ].
    rewrite IH. reflexivity. }
  rewrite H. reflexivity.
Qed.

(** The columns that [make_csv] extracts. *)
Lemma column_data_lists depth w (column_specifiers : list (string * list step))
    (columns : list (list value)) :
  Forall2 (fun named col => apply depth named.2 w = Ok (JList col))
    column_specifiers columns ->
  comprehension
    (fun named : string * list step =>
       try! column := JsonProcessor_getitem depth (Processor w) named.2 in
       Ok (named.1, pjson column))
    column_specifiers
  = Ok (zip (map fst column_specifiers) (map JList columns)).
Proof.
  induction 1 as [ | named col cs cols Hcol _ IH ]; simpl; [ reflexivity | ].
  unfold JsonProcessor_getitem at 1. simpl. rewrite Hcol. simpl.
  rewrite IH. reflexivity.
Qed.

Lemma make_csv_rows_lists depth fuel self column_specifiers context_specifier
    take_product w (columns : list (list value)) :
  apply depth context_specifier (pjson self) = Ok w ->
  Forall2 (fun named col => apply depth named.2 w = Ok (JList col))
    column_specifiers columns ->
  make_csv_rows depth fuel self column_specifiers context_specifier
    take_product
  = if take_product then
      try! gens :=
        comprehension
          (fun row => conditional_product row (KeyFun is_list))
          (zip_rows columns) in
      Ok (map fst column_specifiers, chain fuel gens)
    else Ok (map fst column_specifiers, (zip_rows columns, Stopped)).
Proof.
  intros Hctx Hcols. unfold make_csv_rows.
  unfold JsonProcessor_getitem at 1. rewrite Hctx. simpl.
  rewrite (column_data_lists depth w _ _ Hcols). simpl.
  pose proof (Forall2_length _ _ _ Hcols) as Hlen.
  assert (Hfst : map fst (zip (map fst column_specifiers) (map JList columns))
                 = map fst column_specifiers).
  { apply fst_zip. rewrite !length_map. lia. }
  assert (Hsnd : map snd (zip (map fst column_specifiers) (map JList columns))
                 = map JList columns).
  { apply snd_zip. rewrite !length_map. lia. }
  rewrite Hfst, Hsnd, py_zip_lists. reflexivity.
Qed.

(** X13: without [take_product], when the context and the columns return
    lists, the table has the column names as header and one row per
    position that every column has: row [i] holds the [i]-th entry of each
    column, in the order of the columns; the rows stop with the shortest
    column, and there is none when there is no column. *)
Theorem make_csv_zips_columns depth fuel self column_specifiers
    context_specifier w (columns : list (list value)) :
  apply depth context_specifier (pjson self) = Ok w ->
  Forall2 (fun named col => apply depth named.2 w = Ok (JList col))
    column_specifiers columns ->
  exists rows,
    make_csv_rows depth fuel self column_specifiers context_specifier false
    = Ok (map fst column_specifiers, (rows, Stopped))
    /\ forall i row,
         rows !! i = Some row
         <-> columns <> []
             /\ Forall2 (fun col x => col !! i = Some x) columns row.
Proof.
  intros Hctx Hcols. exists (zip_rows columns). split.
  - apply (make_csv_rows_lists depth fuel self _ _ false w columns Hctx Hcols).
  - apply zip_rows_lookup.
Qed.

Lemma make_csv_zips_columns_witness :
  exists rows,
    make_csv_rows 2 0
      (Processor (JList [JDict [("id"%string, JNum 0)];
                         JDict [("id"%string, JNum 1)]]))
      [("id"%string, [Key (KStr "id")])] [] false
    = Ok (["id"%string], (rows, Stopped))
    /\ forall i row,
         rows !! i = Some row
         <-> [[JNum 0; JNum 1]] <> []
             /\ Forall2 (fun col x => col !! i = Some x)
                  [[JNum 0; JNum 1]] row.
Proof.
  refine (make_csv_zips_columns 2 0
            (Processor (JList [JDict [("id"%string, JNum 0)];
                               JDict [("id"%string, JNum 1)]]))
            [("id"%string, [Key (KStr "id")])] []
            (JList [JDict [("id"%string, JNum 0)];
                    JDict [("id"%string, JNum 1)]])
            [[JNum 0; JNum 1]] eq_refl _).
  repeat constructor.
Defined.

Lemma axes_list row : axes (map is_list row) row = Some (list_axes row).
Proof.
  induction row as [ | v row IH ]; simpl; [ reflexivity | ].
  rewrite IH. destruct v; reflexivity.
Qed.

Lemma has_empty_list_axes row :
  has_empty_list row = true <-> [] ∈ list_axes row.
Proof.
  unfold has_empty_list, list_axes.
  induction row as [ | v row IH ]; simpl.
  - split; [ discriminate | intros H; inversion H ].
  - rewrite elem_of_cons, orb_true_iff, IH.
    destruct v as [ | | | | [ | x l ] | ]; split;
      intros [H | H]; auto; discriminate.
Qed.

(** The traversal of the generator that [make_csv] makes for a row. *)
Lemma drain_list_row fuel row :
  (length (cartesian (list_axes row)) < fuel)%nat ->
  drain fuel (Fresh row (map is_list row))
  = (cartesian (list_axes row),
     if has_empty_list row then Failed RuntimeError else Stopped).
Proof.
  intros Hfuel.
  rewrite (drain_fresh fuel _ row _ (axes_list row) (length_map _ _) Hfuel).
  f_equal.
  pose proof (first_digits_None _ row _ (axes_list row)) as Hnone.
  rewrite <- has_empty_list_axes in Hnone.
  destruct (first_digits (map is_list row) row), (has_empty_list row);
    try reflexivity.
  - destruct Hnone as [_ H]. discriminate (H eq_refl).
  - destruct Hnone as [H _]. discriminate (H eq_refl).
Qed.

Lemma product_gens rows :
  comprehension (fun row => conditional_product row (KeyFun is_list)) rows
  = Ok (map (fun row => Fresh row (map is_list row)) rows).
Proof.
  induction rows as [ | row rows IH ]; [ reflexivity | ].
  cbn [comprehension map]. rewrite IH. reflexivity.
Qed.

Lemma chain_rows fuel rows :
  Forall (fun row => (length (cartesian (list_axes row)) < fuel)%nat) rows ->
  Forall (fun row => has_empty_list row = false) rows ->
  chain fuel (map (fun row => Fresh row (map is_list row)) rows)
  = (concat (map (fun row => cartesian (list_axes row)) rows), Stopped).
Proof.
  induction 1 as [ | row rows Hrow _ IH ]; intros Hne; simpl;
    [ reflexivity | ].
  apply Forall_cons in Hne as [Hhere Hne].
  rewrite (drain_list_row fuel row Hrow), Hhere. simpl.
  rewrite (IH Hne). reflexivity.
Qed.

Lemma chain_rows_empty_list fuel before row after :
  Forall (fun r => (length (cartesian (list_axes r)) < fuel)%nat) before ->
  Forall (fun r => has_empty_list r = false) before ->
  has_empty_list row = true -> (0 < fuel)%nat ->
  chain fuel
    (map (fun r => Fresh r (map is_list r)) (before ++ row :: after))
  = (concat (map (fun r => cartesian (list_axes r)) before),
     Failed RuntimeError).
Proof.
  intros Hfuel Hne Hrow Hpos.
  induction Hfuel as [ | r before Hr _ IH ]; simpl.
  - pose proof (proj1 (has_empty_list_axes row) Hrow) as Hin.
    rewrite drain_list_row
      by (rewrite (cartesian_empty_axis _ Hin); exact Hpos).
    rewrite Hrow, (cartesian_empty_axis _ Hin). reflexivity.
  - apply Forall_cons in Hne as [Hhere Hne].
    rewrite (drain_list_row fuel r Hr), Hhere. simpl.
    rewrite (IH Hne). reflexivity.
Qed.

(** X14: with [take_product], when the context and the columns return
    lists and no cell of the table is an empty list, each row of the table
    is replaced, in place, by the cartesian product of its cells that are
    lists (the other cells being held, dicts and strs among them), and
    [make_csv] returns. *)
Theorem make_csv_takes_product depth fuel self column_specifiers
    context_specifier w (columns : list (list value)) :
  apply depth context_specifier (pjson self) = Ok w ->
  Forall2 (fun named col => apply depth named.2 w = Ok (JList col))
    column_specifiers columns ->
  Forall (fun row => (length (cartesian (list_axes row)) < fuel)%nat)
    (zip_rows columns) ->
  Forall (fun row => has_empty_list row = false) (zip_rows columns) ->
  make_csv_rows depth fuel self column_specifiers context_specifier true
  = Ok (map fst column_specifiers,
        (concat (map (fun row => cartesian (list_axes row))
                   (zip_rows columns)),
         Stopped)).
Proof.
  intros Hctx Hcols Hfuel Hne.
  rewrite (make_csv_rows_lists depth fuel self _ _ true w columns Hctx Hcols).
  rewrite product_gens. simpl.
  rewrite (chain_rows fuel _ Hfuel Hne). reflexivity.
Qed.

Lemma make_csv_takes_product_witness :
  make_csv_rows 3 3
    (Processor (JList [JDict [("id"%string, JNum 0);
                              ("pts"%string, JList [JNum 4; JNum 5])]]))
    [("id"%string, [Key (KStr "id")]); ("pt"%string, [Key (KStr "pts")])]
    [] true
  = Ok (["id"%string; "pt"%string],
        ([[JNum 0; JNum 4]; [JNum 0; JNum 5]], Stopped)).
Proof.
  refine (make_csv_takes_product 3 3
            (Processor (JList [JDict [("id"%string, JNum 0);
                                      ("pts"%string, JList [JNum 4; JNum 5])]]))
            [("id"%string, [Key (KStr "id")]);
             ("pt"%string, [Key (KStr "pts")])]
            []
            (JList [JDict [("id"%string, JNum 0);
                           ("pts"%string, JList [JNum 4; JNum 5])]])
            [[JNum 0]; [JList [JNum 4; JNum 5]]] eq_refl _ _ _).
  - repeat constructor.
  - repeat constructor.
  - repeat constructor.
Defined.

(** X15: with [take_product], a row that holds an empty list makes
    [make_csv] raise [RuntimeError] while its rows are written (the rows
    before it are those of the product, none comes after): the product of
    that row is not taken as empty. *)
Theorem make_csv_empty_list_raises depth fuel self column_specifiers
    context_specifier w (columns : list (list value)) before row after :
  apply depth context_specifier (pjson self) = Ok w ->
  Forall2 (fun named col => apply depth named.2 w = Ok (JList col))
    column_specifiers columns ->
  zip_rows columns = before ++ row :: after ->
  Forall (fun r => (length (cartesian (list_axes r)) < fuel)%nat) before ->
  Forall (fun r => has_empty_list r = false) before ->
  has_empty_list row = true -> (0 < fuel)%nat ->
  make_csv_rows depth fuel self column_specifiers context_specifier true
  = Ok (map fst column_specifiers,
        (concat (map (fun r => cartesian (list_axes r)) before),
         Failed RuntimeError)).
Proof.
  intros Hctx Hcols Hrows Hfuel Hne Hrow Hpos.
  rewrite (make_csv_rows_lists depth fuel self _ _ true w columns Hctx Hcols).
  rewrite product_gens, Hrows. simpl.
  rewrite (chain_rows_empty_list fuel _ _ _ Hfuel Hne Hrow Hpos).
  reflexivity.
Qed.

Lemma make_csv_empty_list_raises_witness :
  make_csv_rows 3 1
    (Processor (JList [JDict [("id"%string, JNum 0);
                              ("pts"%string, JList [])]]))
    [("id"%string, [Key (KStr "id")]); ("pt"%string, [Key (KStr "pts")])]
    [] true
  = Ok (["id"%string; "pt"%string], ([], Failed RuntimeError)).
Proof.
  refine (make_csv_empty_list_raises 3 1
            (Processor (JList [JDict [("id"%string, JNum 0);
                                      ("pts"%string, JList [])]]))
            [("id"%string, [Key (KStr "id")]);
             ("pt"%string, [Key (KStr "pts")])]
            []
            (JList [JDict [("id"%string, JNum 0);
                           ("pts"%string, JList [])]])
            [[JNum 0]; [JList []]] [] [JNum 0; JList []] []
            eq_refl _ eq_refl _ _ eq_refl _).
  - repeat constructor.
  - constructor.
  - constructor.
  - lia.
Defined.

Lemma cartesian_no_list row :
  Forall (fun v => is_list v = false) row ->
  cartesian (list_axes row) = [row].
Proof.
  intros Hrow. unfold list_axes.
  induction Hrow as [ | v row Hv _ IH ]; simpl; [ reflexivity | ].
  rewrite IH. destruct v; try discriminate; reflexivity.
Qed.

Lemma has_empty_list_no_list row :
  Forall (fun v => is_list v = false) row -> has_empty_list row = false.
Proof.
  unfold has_empty_list.
  induction 1 as [ | v row Hv _ IH ]; simpl; [ reflexivity | ].
  rewrite IH. destruct v; try discriminate; reflexivity.
Qed.

(** X16: when the context and the columns return lists and no cell of the
    table is a list, [take_product] changes nothing: [make_csv] writes the
    same rows with it and without it. *)
Theorem make_csv_product_without_lists depth fuel self column_specifiers
    context_specifier w (columns : list (list value)) :
  apply depth context_specifier (pjson self) = Ok w ->
  Forall2 (fun named col => apply depth named.2 w = Ok (JList col))
    column_specifiers columns ->
  Forall (Forall (fun v => is_list v = false)) (zip_rows columns) ->
  (1 < fuel)%nat ->
  make_csv_rows depth fuel self column_specifiers context_specifier true
  = make_csv_rows depth fuel self column_specifiers context_specifier false.
Proof.
  intros Hctx Hcols Hflat Hfuel.
  rewrite (make_csv_rows_lists depth fuel self _ _ false w columns Hctx Hcols).
  rewrite (make_csv_rows_lists depth fuel self _ _ true w columns Hctx Hcols).
  rewrite product_gens. simpl.
  rewrite chain_rows.
  - do 3 f_equal.
    induction Hflat as [ | row rows Hrow _ IH ]; simpl; [ reflexivity | ].
    rewrite (cartesian_no_list row Hrow), IH. reflexivity.
  - eapply Forall_impl; [ exact Hflat | ].
    intros row Hrow. rewrite (cartesian_no_list row Hrow). simpl. lia.
  - eapply Forall_impl; [ exact Hflat | ].
    apply has_empty_list_no_list.
Qed.

Lemma make_csv_product_without_lists_witness :
  make_csv_rows 2 2
    (Processor (JList [JDict [("id"%string, JNum 0)];
                       JDict [("id"%string, JNum 1)]]))
    [("id"%string, [Key (KStr "id")])] [] true
  = make_csv_rows 2 2
      (Processor (JList [JDict [("id"%string, JNum 0)];
                         JDict [("id"%string, JNum 1)]]))
      [("id"%string, [Key (KStr "id")])] [] false.
Proof.
  refine (make_csv_product_without_lists 2 2
            (Processor (JList [JDict [("id"%string, JNum 0)];
                               JDict [("id"%string, JNum 1)]]))
            [("id"%string, [Key (KStr "id")])] []
            (JList [JDict [("id"%string, JNum 0)];
                    JDict [("id"%string, JNum 1)]])
            [[JNum 0; JNum 1]] eq_refl _ _ _).
  - repeat constructor.
  - repeat constructor.
  - lia.
Defined.

Lemma column_data_values depth w (column_specifiers : list (string * list step))
    (columns : list value) :
  Forall2 (fun named col => apply depth named.2 w = Ok col)
    column_specifiers columns ->
  comprehension
    (fun named : string * list step =>
       try! column := JsonProcessor_getitem depth (Processor w) named.2 in
       Ok (named.1, pjson column))
    column_specifiers
  = Ok (zip (map fst column_specifiers) columns).
Proof.
  induction 1 as [ | named col cs cols Hcol _ IH ]; simpl; [ reflexivity | ].
  unfold JsonProcessor_getitem at 1. simpl. rewrite Hcol. simpl.
  rewrite IH. reflexivity.
Qed.

Lemma py_zip_not_iterable columns :
  Exists (fun col => isiterable col = false) columns ->
  py_zip columns = Raise TypeError.
Proof.
  unfold py_zip. intros Hex.
  assert (H : comprehension
                (fun c => match py_iter c with
                          | Some elems => Ok elems
                          | None => Raise TypeError
                          end) columns = Raise TypeError).
  { induction Hex as [ col columns Hcol | col columns _ IH ]; simpl.
    - unfold isiterable in Hcol.
      destruct (py_iter col); [ discriminate | reflexivity ].
    - destruct (py_iter col); [ | reflexivity ].
      simpl. rewrite IH. reflexivity. }
  rewrite H. reflexivity.
Qed.

(** X17: when the specifier of some column returns a value that cannot be
    iterated (a number, a boolean or null, as when the context is a single
    record and not a list of records), [make_csv] raises [TypeError], with
    [take_product] or without it: the columns are zipped as they are. *)
Theorem make_csv_scalar_column_raises depth fuel self column_specifiers
    context_specifier take_product w (columns : list value) :
  apply depth context_specifier (pjson self) = Ok w ->
  Forall2 (fun named col => apply depth named.2 w = Ok col)
    column_specifiers columns ->
  Exists (fun col => isiterable col = false) columns ->
  make_csv_rows depth fuel self column_specifiers context_specifier
    take_product
  = Raise TypeError.
Proof.
  intros Hctx Hcols Hex. unfold make_csv_rows.
  unfold JsonProcessor_getitem at 1. rewrite Hctx. simpl.
  rewrite (column_data_values depth w _ _ Hcols). simpl.
  assert (Hsnd : map snd (zip (map fst column_specifiers) columns) = columns).
  { apply snd_zip. rewrite length_map, (Forall2_length _ _ _ Hcols). lia. }
  rewrite Hsnd, (py_zip_not_iterable columns Hex). reflexivity.
Qed.

Lemma make_csv_scalar_column_raises_witness :
  make_csv_rows 2 2 (Processor (JDict [("id"%string, JNum 0)]))
    [("id"%string, [Key (KStr "id")])] [] false
  = Raise TypeError.
Proof.
  refine (make_csv_scalar_column_raises 2 2
            (Processor (JDict [("id"%string, JNum 0)]))
            [("id"%string, [Key (KStr "id")])] [] false
            (JDict [("id"%string, JNum 0)]) [JNum 0] eq_refl _ _).
  - repeat constructor.
  - apply Exists_cons_hd. reflexivity.
Defined.
